(** * grader_utils: a shallow embedding of [ProcessWrapper] and [execute]

    The Python module [grader_utils/__init__.py] wraps [subprocess.Popen]:
    [run] spawns a child in a new session and starts a waiter thread,
    [join] waits for that thread with a timeout and escalates SIGTERM then
    SIGKILL, [send_signal] forwards a signal, [is_alive] asks [ps] whether
    the child's process group still exists, and [execute] chains the
    constructor, [run] and [join].

    The embedding is a state-and-exception monad over the object's fields and
    an explicit operating-system state.  Everything the operating system
    decides (whether a spawn succeeds, when the waiter thread finishes, what
    a pipe write does, whether a sleep is granted, what [ps] prints) is read
    from scripts held in that state, so every definition computes. *)

From Stdlib Require Import ZArith QArith List String Ascii Bool Lia.
From Stdlib Require Import Strings.Byte DecimalString DecimalPos DecimalZ.
Import ListNotations.
Local Open Scope string_scope.
Local Open Scope list_scope.
Local Open Scope Z_scope.

(* ================================================================== *)
(** ** Python exceptions and results of calls *)

Module Py.

(** The exception classes that the modelled calls can raise. *)
Inductive exn : Type :=
| OSError | FileNotFoundError | PermissionError | ProcessLookupError
| BrokenPipeError | BlockingIOError
| ValueError | OverflowError | IndexError | KeyError | AttributeError
| UnicodeDecodeError | RuntimeError.

(** [issubclass(e, OSError)]; [IOError] is an alias of [OSError]. *)
Definition is_OSError (e : exn) : bool :=
  match e with
  | OSError | FileNotFoundError | PermissionError | ProcessLookupError
  | BrokenPipeError | BlockingIOError => true
  | _ => false
  end.

Definition is_IOError : exn -> bool := is_OSError.

(** What a call does: return a value, raise, never return (a join without
    timeout on a thread that never ends), or exhaust the recursion budget of
    the model. *)
Inductive Res (A : Type) : Type :=
| Ret (a : A)
| Raise (e : exn)
| Hang
| NoFuel.
Arguments Ret {A} a.
Arguments Raise {A} e.
Arguments Hang {A}.
Arguments NoFuel {A}.

Definition bytes := list byte.

(** The runtime values that can sit in [delayed_inputs]. *)
Inductive value : Type :=
| VInt (z : Z)
| VFloat (q : Q)          (* a finite float, as the rational it denotes *)
| VBytes (b : bytes)
| VStr (s : string)
| VBool (b : bool)
| VNone.

Inductive pytype : Type := TInt | TFloat | TBytes | TStr | TBool | TNoneType.

(** [type(v)]; note that [type(True)] is [bool], not [int]. *)
Definition type (v : value) : pytype :=
  match v with
  | VInt _ => TInt | VFloat _ => TFloat | VBytes _ => TBytes
  | VStr _ => TStr | VBool _ => TBool | VNone => TNoneType
  end.

(** [type(v) is t] *)
Definition type_is (v : value) (t : pytype) : bool :=
  match type v, t with
  | TInt, TInt | TFloat, TFloat | TBytes, TBytes
  | TStr, TStr | TBool, TBool | TNoneType, TNoneType => true
  | _, _ => false
  end.

End Py.
Import Py.

(* ================================================================== *)
(** ** [str.format]

    Formatting is kept symbolic in the rendering of each argument: a
    formatted message is a list of literal pieces and argument values, each
    value with what the field says after its first component (attribute and
    index lookups, conversion, format specification), uninterpreted.  The
    first component is resolved as Python does: [{}] takes the next
    positional argument, [{3}] the fourth one, the two ways of numbering do
    not mix, and a field that starts with a name is looked up among the
    keyword arguments, of which no call in this module passes any. *)

Module Format.

(** Arguments passed to [format] in this module. *)
Inductive arg : Type :=
| AInt (z : Z)
| AStr (s : string)
| ABytes (b : bytes)
| AList (l : list string)
| AExn (e : exn)
| AObj (name : string).

Inductive piece : Type :=
| Lit (s : string)
| Val (a : arg) (conv : string).   (* the argument and what followed its name *)

Definition message := list piece.

Definition is_digit (c : ascii) : bool :=
  let n := nat_of_ascii c in (48 <=? n)%nat && (n <=? 57)%nat.

Fixpoint all_digits (s : string) : bool :=
  match s with
  | EmptyString => true
  | String c s' => is_digit c && all_digits s'
  end.

Fixpoint N_of_digits (s : string) (acc : N) : N :=
  match s with
  | EmptyString => acc
  | String c s' => N_of_digits s' (10 * acc + (N_of_ascii c - 48))%N
  end.

(** The largest index that [format] reads from a field. *)
Definition PY_SSIZE_T_MAX : N := 2 ^ 63 - 1.

(** [args[i]] *)
Fixpoint item (args : list arg) (i : N) : option arg :=
  match args with
  | [] => None
  | a :: rest => if (i =? 0)%N then Some a else item rest (N.pred i)
  end.

(** How the fields seen so far are numbered. *)
Inductive numbering : Type :=
| Unset                            (* no numbered field yet *)
| Auto (next : N)                  (* [{}] fields; the index of the next one *)
| Manual.                          (* [{0}] fields *)

Definition ends_name (c : ascii) : bool :=
  match c with
  | "."%char | "["%char | "!"%char | ":"%char => true
  | _ => false
  end.

(** First component of a replacement field, and the rest of it. *)
Fixpoint split_field (s : string) : string * string :=
  match s with
  | EmptyString => (EmptyString, EmptyString)
  | String c s' =>
      if ends_name c then (EmptyString, s)
      else let '(n, r) := split_field s' in (String c n, r)
  end.

Fixpoint has_brace (s : string) : bool :=
  match s with
  | EmptyString => false
  | String c s' => Ascii.eqb c "{" || has_brace s'
  end.

(** Resolve one replacement field against the positional arguments.  A
    field without a name takes the next argument, a number takes that one;
    going from one kind to the other is a [ValueError], raised before the
    argument is looked up. *)
Definition resolve (field : string) (args : list arg) (num : numbering)
  : Res (piece * numbering) :=
  let '(name, rest) := split_field field in
  match name with
  | EmptyString =>
      match num with
      | Manual => Raise ValueError
      | _ =>
          let next := match num with Auto n => n | _ => 0%N end in
          match item args next with
          | Some a => Ret (Val a rest, Auto (N.succ next))
          | None => Raise IndexError
          end
      end
  | _ =>
      if has_brace name then Raise ValueError
      else if all_digits name then
        let i := N_of_digits name 0 in
        if (PY_SSIZE_T_MAX <? i)%N then Raise ValueError
        else
          match num with
          | Auto _ => Raise ValueError
          | _ =>
              match item args i with
              | Some a => Ret (Val a rest, Manual)
              | None => Raise IndexError
              end
          end
      else Raise KeyError          (* no keyword argument of that name *)
  end.

Inductive scan : Type :=
| InLit (lit : string)             (* inside literal text *)
| Opened (lit : string)            (* just read an opening brace *)
| InField (field : string)         (* inside a replacement field *)
| Closed (lit : string).           (* just read a closing brace in text *)

Definition snoc (s : string) (c : ascii) : string := (s ++ String c EmptyString)%string.

Definition flush (lit : string) (acc : message) : message :=
  match lit with
  | EmptyString => acc
  | _ => acc ++ [Lit lit]
  end.

Fixpoint go (cs : list ascii) (st : scan) (args : list arg) (next : numbering)
            (acc : message) : Res message :=
  match cs with
  | [] =>
      match st with
      | InLit lit => Ret (flush lit acc)
      | _ => Raise ValueError
      end
  | c :: cs' =>
      match st with
      | InLit lit =>
          match c with
          | "{"%char => go cs' (Opened lit) args next acc
          | "}"%char => go cs' (Closed lit) args next acc
          | _ => go cs' (InLit (snoc lit c)) args next acc
          end
      | Opened lit =>
          match c with
          | "{"%char => go cs' (InLit (snoc lit c)) args next acc
          | "}"%char =>
              match resolve EmptyString args next with
              | Ret (p, next') => go cs' (InLit EmptyString) args next' (flush lit acc ++ [p])
              | Raise e => Raise e
              | Hang => Hang
              | NoFuel => NoFuel
              end
          | _ => go cs' (InField (String c EmptyString)) args next (flush lit acc)
          end
      | InField field =>
          match c with
          | "}"%char =>
              match resolve field args next with
              | Ret (p, next') => go cs' (InLit EmptyString) args next' (acc ++ [p])
              | Raise e => Raise e
              | Hang => Hang
              | NoFuel => NoFuel
              end
          | _ => go cs' (InField (snoc field c)) args next acc
          end
      | Closed lit =>
          match c with
          | "}"%char => go cs' (InLit (snoc lit c)) args next acc
          | _ => Raise ValueError
          end
      end
  end.

(** [template.format( *args )] *)
Definition format (template : string) (args : list arg) : Res message :=
  go (list_ascii_of_string template) (InLit EmptyString) args Unset [].

End Format.

(* ================================================================== *)
(** ** Text: [bytes.decode('utf8')], [str.split()], [str(int)], [in] *)

Module Text.

(** A Python [str] is a sequence of code points. *)
Definition str := list N.

Local Open Scope N_scope.

Definition between (lo x hi : N) : bool := (lo <=? x) && (x <=? hi).

Definition cont (b : N) : bool := between 128 b 191.

(** Strict UTF-8: shortest forms only, no surrogates, nothing above
    U+10FFFF; [None] stands for [UnicodeDecodeError]. *)
Fixpoint utf8_decode (bs : bytes) : option str :=
  match bs with
  | [] => Some []
  | b0 :: r0 =>
      let n0 := Byte.to_N b0 in
      if n0 <? 128 then option_map (cons n0) (utf8_decode r0)
      else
        match r0 with
        | [] => None
        | b1 :: r1 =>
            let n1 := Byte.to_N b1 in
            if between 194 n0 223 then
              if cont n1
              then option_map (cons ((n0 - 192) * 64 + (n1 - 128))) (utf8_decode r1)
              else None
            else
              match r1 with
              | [] => None
              | b2 :: r2 =>
                  let n2 := Byte.to_N b2 in
                  if between 224 n0 239 then
                    if between (if n0 =? 224 then 160 else 128) n1
                               (if n0 =? 237 then 159 else 191) && cont n2
                    then option_map
                           (cons ((n0 - 224) * 4096 + (n1 - 128) * 64 + (n2 - 128)))
                           (utf8_decode r2)
                    else None
                  else
                    match r2 with
                    | [] => None
                    | b3 :: r3 =>
                        let n3 := Byte.to_N b3 in
                        if between 240 n0 244 then
                          if between (if n0 =? 240 then 144 else 128) n1
                                     (if n0 =? 244 then 143 else 191)
                             && cont n2 && cont n3
                          then option_map
                                 (cons ((n0 - 240) * 262144 + (n1 - 128) * 4096
                                        + (n2 - 128) * 64 + (n3 - 128)))
                                 (utf8_decode r3)
                          else None
                        else None
                    end
              end
        end
  end.

(** [str.isspace] on one code point. *)
Definition isspace (c : N) : bool :=
  between 9 c 13 || between 28 c 32 || (c =? 133) || (c =? 160)
  || (c =? 5760) || between 8192 c 8202 || (c =? 8232) || (c =? 8233)
  || (c =? 8239) || (c =? 8287) || (c =? 12288).

Fixpoint split_go (s : str) (cur : str) : list str :=
  match s with
  | [] => match cur with [] => [] | _ => [cur] end
  | c :: s' =>
      if isspace c
      then match cur with [] => split_go s' [] | _ => cur :: split_go s' [] end
      else split_go s' (cur ++ [c])
  end.

(** [s.split()] : maximal runs of non-space characters. *)
Definition split (s : str) : list str := split_go s [].

Definition of_string (s : string) : str := map N_of_ascii (list_ascii_of_string s).

(** [str(z)] for an integer. *)
Definition str_of_int (z : Z) : str :=
  of_string (NilZero.string_of_int (Z.to_int z)).

Fixpoint eqb (a b : str) : bool :=
  match a, b with
  | [], [] => true
  | x :: a', y :: b' => (x =? y) && eqb a' b'
  | _, _ => false
  end.

(** [x in l] *)
Definition mem (x : str) (l : list str) : bool := existsb (eqb x) l.

End Text.

(* ================================================================== *)
(** ** [shlex.split] in POSIX mode, without comments *)

Module Shlex.

Definition dquote : ascii := ascii_of_nat 34.
Definition squote : ascii := ascii_of_nat 39.
Definition backslash : ascii := ascii_of_nat 92.

Definition is_whitespace (c : ascii) : bool :=
  let n := nat_of_ascii c in
  ((n =? 32) || (n =? 9) || (n =? 13) || (n =? 10))%nat.

Definition is_quote (c : ascii) : bool :=
  Ascii.eqb c dquote || Ascii.eqb c squote.

(** Lexer states: between tokens, inside a word, inside a quotation, and
    after a backslash (remembering the state to come back to: [None] for a
    word, [Some q] for the quotation opened by [q]). *)
Inductive state : Type :=
| Between
| Word
| Quoted (q : ascii)
| Escaped (back : option ascii).

Definition snoc (s : string) (c : ascii) : string := (s ++ String c EmptyString)%string.

Fixpoint lex (cs : list ascii) (st : state) (tok : string) : option (list string) :=
  match cs with
  | [] =>
      match st with
      | Between => Some []
      | Word => Some [tok]
      | Quoted _ => None                 (* No closing quotation *)
      | Escaped _ => None                (* No escaped character *)
      end
  | c :: cs' =>
      match st with
      | Between =>
          if is_whitespace c then lex cs' Between EmptyString
          else if Ascii.eqb c backslash then lex cs' (Escaped None) EmptyString
          else if is_quote c then lex cs' (Quoted c) EmptyString
          else lex cs' Word (String c EmptyString)
      | Word =>
          if is_whitespace c then option_map (cons tok) (lex cs' Between EmptyString)
          else if is_quote c then lex cs' (Quoted c) tok
          else if Ascii.eqb c backslash then lex cs' (Escaped None) tok
          else lex cs' Word (snoc tok c)
      | Quoted q =>
          if Ascii.eqb c q then lex cs' Word tok
          else if Ascii.eqb c backslash && Ascii.eqb q dquote
               then lex cs' (Escaped (Some q)) tok
          else lex cs' (Quoted q) (snoc tok c)
      | Escaped None => lex cs' Word (snoc tok c)
      | Escaped (Some q) =>
          if negb (Ascii.eqb c backslash) && negb (Ascii.eqb c q)
          then lex cs' (Quoted q) (snoc (snoc tok backslash) c)
          else lex cs' (Quoted q) (snoc tok c)
      end
  end.

(** [shlex.split(s)]; a malformed string raises [ValueError]. *)
Definition split (s : string) : Res (list string) :=
  match lex (list_ascii_of_string s) Between EmptyString with
  | Some l => Ret l
  | None => Raise ValueError
  end.

End Shlex.

(* ================================================================== *)
(** ** The operating system, as the module sees it *)

Inductive Signal : Type := SIGTERM | SIGKILL | SIGINT | SIGHUP | SIGUSR1.

(** The value of a [stdin=], [stdout=] or [stderr=] argument: [None]
    (inherit), [subprocess.PIPE], the module's [DEVNULL] handle, or some
    other open file. *)
Inductive Stdio : Type := Inherit | PIPE | DEVNULL | File (fd : Z).

Definition is_PIPE (s : Stdio) : bool :=
  match s with PIPE => true | _ => false end.

Inductive level : Type := DEBUG | INFO | WARNING | ERROR | CRITICAL.

(** What the child leaves behind once it has exited and its pipes are
    drained. *)
Record Completion : Type := {
  exit_code : Z;
  out : bytes;
  err : bytes
}.

(** One observation of the waiter thread by the main thread. *)
Inductive tick : Type :=
| Running                       (* the thread has not finished yet *)
| Done (c : Completion).        (* the child has exited, the thread ends *)

Inductive write_res : Type :=
| WriteOk
| WriteFails (e : exn).

(** The answer of the system to one [Popen] call: a refusal, or a new
    process together with its future (what successive observations of its
    waiter will see; what successive writes to its stdin will do).  A
    script that runs out means: still running; write accepted. *)
Inductive spawn_res : Type :=
| Spawned (pid : Z) (ticks : list tick) (writes : list write_res)
| Refused (e : exn).

(** Every call that reaches the system is recorded, failed attempts
    included. *)
Inductive event : Type :=
| EPopen (args : list string) (r : exn + Z)
| EThreadStart
| ESleep (v : value)
| EWrite (b : bytes) (r : write_res)
| EWait (timeout : option Q)
| EKillpg (pgid : Z) (sig : Signal) (r : option exn)
| ESendSignal (pid : Z) (sig : Signal)
| ELog (l : level) (m : Format.message).

Record OS : Type := {
  spawns : list spawn_res;       (* answers to the coming [Popen] calls *)
  kills : list (option exn);     (* answers to the coming [os.killpg] calls *)
  sleeps : list (option exn);    (* answers to the coming sleeps; none left: granted *)
  trace : list event             (* what has happened so far, oldest first *)
}.

(* ================================================================== *)
(** ** Objects *)

Module Popen.
(** A [subprocess.Popen] handle; [ticks] and [writes] are the future of
    the process it stands for. *)
Record t : Type := {
  args : list string;
  pid : Z;
  returncode : option Z;
  stdin : bool;                  (* [stdin is not None]: there is a pipe *)
  ticks : list tick;
  writes : list write_res
}.

Definition attributes : list string :=
  ["args"; "stdin"; "stdout"; "stderr"; "pid"; "returncode"; "encoding";
   "errors"; "text_mode"; "universal_newlines"; "poll"; "wait";
   "communicate"; "send_signal"; "terminate"; "kill"].

(** [getattr(p, name)], as an argument of [format]. *)
Definition getattr (p : t) (name : string) : Res Format.arg :=
  if String.eqb name "pid" then Ret (Format.AInt (pid p))
  else if existsb (String.eqb name) attributes then Ret (Format.AObj name)
  else Raise AttributeError.
End Popen.

(** A [threading.Thread] running [target]: not started, started (and
    whether the staged-input loop of [target] died with an exception), or
    finished. *)
Inductive Thread : Type :=
| Initial
| Started (crashed : option exn)
| Stopped.

Module Outcome.
(** The dict returned by [join]. *)
Record t : Type := {
  returncode : option Z;
  stdout : option bytes;
  stderr : option bytes;
  timeout : bool;
  killed : bool;
  timeout_pg : bool;
  killed_pg : bool
}.
End Outcome.

(** The options stored by [__init__]; no method assigns them again. *)
Record Config : Type := {
  command : list string;
  timeout : option Q;
  stdout : Stdio;
  stderr : Stdio;
  stdin : Stdio;
  cwd : option string;
  inputs : option bytes;
  delayed_inputs : list value;
  disable_communicate : bool;
  check_pg_alive : bool;
  env : option (list (string * string))
}.

Record ProcessWrapper : Type := {
  conf : Config;
  process : option Popen.t;
  thread : option Thread;
  killed : bool;
  stdout_res : option bytes;
  stderr_res : option bytes;
  exit_timeout : bool;
  exit_force : bool;
  exit_timeout_pg : bool;
  exit_force_pg : bool
}.

Definition set_process (v : option Popen.t) (s : ProcessWrapper) :=
  {| conf := conf s; process := v; thread := thread s; killed := killed s;
     stdout_res := stdout_res s; stderr_res := stderr_res s;
     exit_timeout := exit_timeout s; exit_force := exit_force s;
     exit_timeout_pg := exit_timeout_pg s; exit_force_pg := exit_force_pg s |}.

Definition set_thread (v : option Thread) (s : ProcessWrapper) :=
  {| conf := conf s; process := process s; thread := v; killed := killed s;
     stdout_res := stdout_res s; stderr_res := stderr_res s;
     exit_timeout := exit_timeout s; exit_force := exit_force s;
     exit_timeout_pg := exit_timeout_pg s; exit_force_pg := exit_force_pg s |}.

Definition set_stdout_res (v : option bytes) (s : ProcessWrapper) :=
  {| conf := conf s; process := process s; thread := thread s; killed := killed s;
     stdout_res := v; stderr_res := stderr_res s;
     exit_timeout := exit_timeout s; exit_force := exit_force s;
     exit_timeout_pg := exit_timeout_pg s; exit_force_pg := exit_force_pg s |}.

Definition set_stderr_res (v : option bytes) (s : ProcessWrapper) :=
  {| conf := conf s; process := process s; thread := thread s; killed := killed s;
     stdout_res := stdout_res s; stderr_res := v;
     exit_timeout := exit_timeout s; exit_force := exit_force s;
     exit_timeout_pg := exit_timeout_pg s; exit_force_pg := exit_force_pg s |}.

Definition set_exit_timeout (v : bool) (s : ProcessWrapper) :=
  {| conf := conf s; process := process s; thread := thread s; killed := killed s;
     stdout_res := stdout_res s; stderr_res := stderr_res s;
     exit_timeout := v; exit_force := exit_force s;
     exit_timeout_pg := exit_timeout_pg s; exit_force_pg := exit_force_pg s |}.

Definition set_exit_force (v : bool) (s : ProcessWrapper) :=
  {| conf := conf s; process := process s; thread := thread s; killed := killed s;
     stdout_res := stdout_res s; stderr_res := stderr_res s;
     exit_timeout := exit_timeout s; exit_force := v;
     exit_timeout_pg := exit_timeout_pg s; exit_force_pg := exit_force_pg s |}.

Definition set_exit_timeout_pg (v : bool) (s : ProcessWrapper) :=
  {| conf := conf s; process := process s; thread := thread s; killed := killed s;
     stdout_res := stdout_res s; stderr_res := stderr_res s;
     exit_timeout := exit_timeout s; exit_force := exit_force s;
     exit_timeout_pg := v; exit_force_pg := exit_force_pg s |}.

Definition set_exit_force_pg (v : bool) (s : ProcessWrapper) :=
  {| conf := conf s; process := process s; thread := thread s; killed := killed s;
     stdout_res := stdout_res s; stderr_res := stderr_res s;
     exit_timeout := exit_timeout s; exit_force := exit_force s;
     exit_timeout_pg := exit_timeout_pg s; exit_force_pg := v |}.

(* ================================================================== *)
(** ** The monad of method bodies: the object, the system, exceptions *)

Record St : Type := { self : ProcessWrapper; os : OS }.

Definition M (A : Type) : Type := St -> Res A * St.

Definition ret {A} (a : A) : M A := fun st => (Ret a, st).

Definition bind {A B} (m : M A) (f : A -> M B) : M B :=
  fun st =>
    match m st with
    | (Ret a, st') => f a st'
    | (Raise e, st') => (Raise e, st')
    | (Hang, st') => (Hang, st')
    | (NoFuel, st') => (NoFuel, st')
    end.

Notation "x <- m ;; k" := (bind m (fun x => k))
  (at level 61, m at next level, right associativity).

Notation "m ;; k" := (bind m (fun _ => k))
  (at level 61, right associativity).

Definition raise {A} (e : exn) : M A := fun st => (Raise e, st).

Definition get : M ProcessWrapper := fun st => (Ret (self st), st).

Definition modify (f : ProcessWrapper -> ProcessWrapper) : M unit :=
  fun st => (Ret tt, {| self := f (self st); os := os st |}).

Definition emit (e : event) : M unit :=
  fun st => (Ret tt, {| self := self st;
                        os := {| spawns := spawns (os st); kills := kills (os st);
                                 sleeps := sleeps (os st);
                                 trace := trace (os st) ++ [e] |} |}).

(** The value of an expression that may raise. *)
Definition eval {A} (r : Res A) : M A := fun st => (r, st).

(** [try: m  except ...:] hands the exception, if any, to the handler. *)
Definition catch {A} (m : M A) : M (exn + A) :=
  fun st =>
    match m st with
    | (Ret a, st') => (Ret (inr a), st')
    | (Raise e, st') => (Ret (inl e), st')
    | (Hang, st') => (Hang, st')
    | (NoFuel, st') => (NoFuel, st')
    end.

(** [lg.<level>(message)] *)
Definition lg (l : level) (m : Format.message) : M unit := emit (ELog l m).

Definition with_trace (e : event) (o : OS) : OS :=
  {| spawns := spawns o; kills := kills o; sleeps := sleeps o; trace := trace o ++ [e] |}.

(* ================================================================== *)
(** ** Library calls made by the methods *)

Definition with_returncode (rc : option Z) (p : Popen.t) : Popen.t :=
  {| Popen.args := Popen.args p; Popen.pid := Popen.pid p;
     Popen.returncode := rc; Popen.stdin := Popen.stdin p;
     Popen.ticks := Popen.ticks p; Popen.writes := Popen.writes p |}.

Definition with_ticks (tl : list tick) (p : Popen.t) : Popen.t :=
  {| Popen.args := Popen.args p; Popen.pid := Popen.pid p;
     Popen.returncode := Popen.returncode p; Popen.stdin := Popen.stdin p;
     Popen.ticks := tl; Popen.writes := Popen.writes p |}.

Definition with_writes (tl : list write_res) (p : Popen.t) : Popen.t :=
  {| Popen.args := Popen.args p; Popen.pid := Popen.pid p;
     Popen.returncode := Popen.returncode p; Popen.stdin := Popen.stdin p;
     Popen.ticks := Popen.ticks p; Popen.writes := tl |}.

(** [Popen(args, stdin=..., start_new_session=True, ...)].  An empty
    argument vector fails on [args[0]] before the system is asked; an
    exhausted script of answers refuses. *)
Definition Popen_call (args : list string) (stdin : Stdio) : M Popen.t :=
  fun st =>
    match args with
    | [] => (Raise IndexError, st)
    | _ =>
        match spawns (os st) with
        | [] => (Raise OSError,
                 {| self := self st; os := with_trace (EPopen args (inl OSError)) (os st) |})
        | Refused e :: rest =>
            (Raise e,
             {| self := self st;
                os := {| spawns := rest; kills := kills (os st);
                         sleeps := sleeps (os st);
                         trace := trace (os st) ++ [EPopen args (inl e)] |} |})
        | Spawned pid ticks writes :: rest =>
            (Ret {| Popen.args := args; Popen.pid := pid; Popen.returncode := None;
                    Popen.stdin := is_PIPE stdin;
                    Popen.ticks := ticks; Popen.writes := writes |},
             {| self := self st;
                os := {| spawns := rest; kills := kills (os st);
                         sleeps := sleeps (os st);
                         trace := trace (os st) ++ [EPopen args (inr pid)] |} |})
        end
    end.

(** [os.killpg(pgid, sig)] *)
Definition os_killpg (pgid : Z) (sig : Signal) : M unit :=
  fun st =>
    let r := match kills (os st) with r :: _ => r | [] => None end in
    let o := {| spawns := spawns (os st); kills := tl (kills (os st));
                sleeps := sleeps (os st);
                trace := trace (os st) ++ [EKillpg pgid sig r] |} in
    (match r with Some e => Raise e | None => Ret tt end,
     {| self := self st; os := o |}).

Definition negative (v : value) : bool :=
  match v with
  | VInt z => z <? 0
  | VFloat q => negb (Qle_bool 0 q)
  | _ => false
  end.

Definition INT64_MIN : Z := - 2 ^ 63.
Definition INT64_MAX : Z := 2 ^ 63 - 1.

(** The nearest integer away from zero. *)
Definition round_up (q : Q) : Z :=
  if 0 <=? Qnum q then - ((- Qnum q) / Zpos (Qden q))
  else Qnum q / Zpos (Qden q).

(** The length of a sleep as [time.sleep] takes it: a count of
    nanoseconds, a fraction of one counting as a whole one. *)
Definition nanoseconds (v : value) : Z :=
  match v with
  | VInt z => z * 10 ^ 9
  | VFloat q => round_up (q * inject_Z (10 ^ 9))
  | _ => 0
  end.

(** The count fits the signed 64-bit integer that holds it. *)
Definition fits (v : value) : bool :=
  (INT64_MIN <=? nanoseconds v) && (nanoseconds v <=? INT64_MAX).

(** The system call under [time.sleep]: the system lets the time pass or
    refuses, as it does with [OSError] for a deadline beyond what its clock
    can hold. *)
Definition clock_nanosleep (v : value) : M unit :=
  fun st =>
    let r := match sleeps (os st) with r :: _ => r | [] => None end in
    let o := {| spawns := spawns (os st); kills := kills (os st);
                sleeps := tl (sleeps (os st));
                trace := trace (os st) ++ [ESleep v] |} in
    (match r with Some e => Raise e | None => Ret tt end,
     {| self := self st; os := o |}).

(** [time.sleep(v)] for an int or a float (CPython 3.5 and later).  The
    length is converted first, and a count that does not fit raises
    [OverflowError], whatever its sign; then a negative length raises
    [ValueError]; then the system is asked to sleep.

    The count of a float is taken exactly here, where C rounds the product
    to a double before it compares.  The two agree on every double but one,
    9223372036.854776, whose product rounds to 2^63: CPython 3.11 lets it
    through the range check and raises [ValueError] on the wrapped count. *)
Definition time_sleep (v : value) : M unit :=
  if negb (fits v) then raise OverflowError
  else if negative v then raise ValueError
  else clock_nanosleep v.

(** A length that [time.sleep] accepts. *)
Definition sleepable (v : value) : bool := fits v && negb (negative v).

Definition as_bytes (v : value) : bytes :=
  match v with VBytes b => b | _ => [] end.

(** [self.process.stdin.write(i)] *)
Definition stdin_write (i : value) : M unit :=
  fun st =>
    match process (self st) with
    | None => (Raise AttributeError, st)
    | Some p =>
        if negb (Popen.stdin p) then (Raise AttributeError, st)
        else
          let r := match Popen.writes p with r :: _ => r | [] => WriteOk end in
          let p' := with_writes (tl (Popen.writes p)) p in
          (match r with WriteFails e => Raise e | WriteOk => Ret tt end,
           {| self := set_process (Some p') (self st);
              os := with_trace (EWrite (as_bytes i) r) (os st) |})
    end.

(** [self.process.pid] *)
Definition process_pid : M Z :=
  s <- get ;;
  match process s with
  | Some p => ret (Popen.pid p)
  | None => raise AttributeError
  end.

(** [self.process.send_signal(sig)]: nothing is sent once the return code
    is known. *)
Definition process_send_signal (sig : Signal) : M unit :=
  s <- get ;;
  match process s with
  | Some p =>
      match Popen.returncode p with
      | None => emit (ESendSignal (Popen.pid p) sig)
      | Some _ => ret tt
      end
  | None => raise AttributeError
  end.

(* ================================================================== *)
(** ** The waiter thread *)

Definition newline : string := String (ascii_of_nat 10) EmptyString.

(** One iteration of the loop of [target] (lines 103-112); the result tells
    whether the loop goes on ([false] is [break]). *)
Definition feed_step (i : value) : M bool :=
  if type_is i TInt || type_is i TFloat then
    time_sleep i ;; ret true
  else if type_is i TBytes then
    r <- catch (stdin_write i) ;;
    match r with
    | inr _ => ret true
    | inl e =>
        if is_IOError e then
          m <- eval (Format.format
                       ("Input: {} failed to write to stdin due to" ++ newline ++ "{}")%string
                       [Format.ABytes (as_bytes i); Format.AExn e]) ;;
          lg INFO m ;;
          ret false
        else raise e
    end
  else ret true.

(** Lines 102-112 of [target]: the loop over [self.delayed_inputs]. *)
Fixpoint feed (l : list value) : M unit :=
  match l with
  | [] => ret tt
  | i :: rest =>
      continue <- feed_step i ;;
      if continue then feed rest else ret tt
  end.

(** Lines 113-117 of [target], run when the child has exited with [c]:
    [wait] stores the return code; [communicate] also returns what was read
    from the streams that are pipes. *)
Definition target_end (c : Completion) (s : ProcessWrapper) : ProcessWrapper :=
  match process s with
  | None => s
  | Some p =>
      let s' := set_process (Some (with_returncode (Some (exit_code c)) p)) s in
      if disable_communicate (conf s) then s'
      else
        set_stderr_res (if is_PIPE (stderr (conf s)) then Some (err c) else None)
          (set_stdout_res (if is_PIPE (stdout (conf s)) then Some (out c) else None) s')
  end.

(** The main thread looks at the waiter: the next tick of the child's
    script tells whether the waiter has finished in the meantime, in which
    case its last assignments take effect (unless the loop had died). *)
Definition observe : M unit :=
  fun st =>
    let s := self st in
    match thread s, process s with
    | Some (Started crashed), Some p =>
        match Popen.ticks p with
        | [] => (Ret tt, st)
        | Running :: rest =>
            (Ret tt, {| self := set_process (Some (with_ticks rest p)) s; os := os st |})
        | Done c :: rest =>
            let s1 := set_process (Some (with_ticks rest p)) s in
            let s2 := match crashed with None => target_end c s1 | Some _ => s1 end in
            (Ret tt, {| self := set_thread (Some Stopped) s2; os := os st |})
        end
    | _, _ => (Ret tt, st)
    end.

Definition started (t : option Thread) : bool :=
  match t with Some (Started _) => true | _ => false end.

(** [self.thread.is_alive()] *)
Definition thread_is_alive : M bool :=
  s <- get ;;
  match thread s with
  | None => raise AttributeError
  | Some _ => observe ;; s' <- get ;; ret (started (thread s'))
  end.

(** [self.thread.join(timeout=t)]; without a timeout the call returns only
    when the thread has finished. *)
Definition thread_join (t : option Q) : M unit :=
  s <- get ;;
  match thread s with
  | None => raise AttributeError
  | Some Initial => raise RuntimeError
  | Some _ =>
      emit (EWait t) ;;
      observe ;;
      s' <- get ;;
      match t with
      | None => if started (thread s') then eval Hang else ret tt
      | Some _ => ret tt
      end
  end.

(** [self.thread.start()]: the loop of [target] runs in the new thread; an
    exception there ends the thread and reaches nobody. *)
Definition thread_start : M unit :=
  emit EThreadStart ;;
  s <- get ;;
  r <- catch (feed (delayed_inputs (conf s))) ;;
  modify (set_thread (Some (Started (match r with inl e => Some e | inr _ => None end)))).

(* ================================================================== *)
(** ** [ProcessWrapper] *)

Inductive Command : Type :=
| CmdStr (s : string)
| CmdList (l : list string).

(** The keyword arguments of the constructor; [None] is an absent key. *)
Record Kwargs : Type := {
  kw_timeout : option (option Q);
  kw_stdout : option Stdio;
  kw_stderr : option Stdio;
  kw_stdin : option Stdio;
  kw_cwd : option (option string);
  kw_input : option (option bytes);
  kw_delayed_inputs : option (list value);
  kw_disable_communicate : option bool;
  kw_check_pg_alive : option bool;
  kw_env : option (option (list (string * string)))
}.

Definition no_kwargs : Kwargs :=
  {| kw_timeout := None; kw_stdout := None; kw_stderr := None; kw_stdin := None;
     kw_cwd := None; kw_input := None; kw_delayed_inputs := None;
     kw_disable_communicate := None; kw_check_pg_alive := None; kw_env := None |}.

(** [kwargs.get(key, default)] *)
Definition kwargs_get {A} (x : option A) (default : A) : A :=
  match x with Some v => v | None => default end.

Definition TIME_UNTIL_SIGKILL_SECS : Q := 1%Q.

Definition __init__ (command : Command) (kwargs : Kwargs) : Res ProcessWrapper :=
  match (match command with CmdStr s => Shlex.split s | CmdList l => Ret l end) with
  | Ret argv =>
      Ret {| conf :=
               {| command := argv;
                  timeout := kwargs_get (kw_timeout kwargs) None;
                  stdout := kwargs_get (kw_stdout kwargs) DEVNULL;
                  stderr := kwargs_get (kw_stderr kwargs) DEVNULL;
                  stdin := kwargs_get (kw_stdin kwargs) DEVNULL;
                  cwd := kwargs_get (kw_cwd kwargs) None;
                  inputs := kwargs_get (kw_input kwargs) None;
                  delayed_inputs := kwargs_get (kw_delayed_inputs kwargs) [];
                  disable_communicate := kwargs_get (kw_disable_communicate kwargs) false;
                  check_pg_alive := kwargs_get (kw_check_pg_alive kwargs) true;
                  env := kwargs_get (kw_env kwargs) None |};
             process := None;
             thread := None;
             killed := false;
             stdout_res := None;
             stderr_res := None;
             exit_timeout := false;
             exit_force := false;
             exit_timeout_pg := false;
             exit_force_pg := false |}
  | Raise e => Raise e
  | Hang => Hang
  | NoFuel => NoFuel
  end.

Definition run : M unit :=
  s <- get ;;
  r <- catch (Popen_call (command (conf s)) (stdin (conf s))) ;;
  match r with
  | inl e =>
      if is_OSError e then
        m <- eval (Format.format "Couldn't Popen command {}"
                     [Format.AList (command (conf s))]) ;;
        lg ERROR m ;;
        raise e
      else raise e
  | inr p =>
      modify (set_process (Some p)) ;;
      modify (set_thread (Some Initial)) ;;
      thread_start
  end.

Definition outcome (s : ProcessWrapper) : Outcome.t :=
  {| Outcome.returncode :=
       match process s with Some p => Popen.returncode p | None => None end;
     Outcome.stdout := stdout_res s;
     Outcome.stderr := stderr_res s;
     Outcome.timeout := exit_timeout s;
     Outcome.killed := exit_force s;
     Outcome.timeout_pg := exit_timeout_pg s;
     Outcome.killed_pg := exit_force_pg s |}.

Definition send_signal (sig : Signal) : M unit :=
  a <- thread_is_alive ;;
  if a then process_send_signal sig
  else
    s <- get ;;
    c0 <- eval (match command (conf s) with
                | x :: _ => Ret (Format.AStr x)
                | [] => Raise IndexError
                end) ;;
    pd <- match process s with
          | Some p => eval (Popen.getattr p "pd")
          | None => raise AttributeError
          end ;;
    m <- eval (Format.format
                 "Couldn't deliver signal to already dead process {} ({})" [c0; pd]) ;;
    lg WARNING m.

(** The keyword arguments of the call in [is_alive]:
    [check_pg_alive=False, stdout=PIPE]. *)
Definition ps_kwargs : Kwargs :=
  {| kw_timeout := None; kw_stdout := Some PIPE; kw_stderr := None;
     kw_stdin := None; kw_cwd := None; kw_input := None;
     kw_delayed_inputs := None; kw_disable_communicate := None;
     kw_check_pg_alive := Some false; kw_env := None |}.

Section Methods.

(** The module-level [execute], which [is_alive] calls. *)
Variable execute : Command -> Kwargs -> OS -> Res Outcome.t * OS.

Definition call_execute (command : Command) (kwargs : Kwargs) : M Outcome.t :=
  fun st =>
    let '(r, o) := execute command kwargs (os st) in
    (r, {| self := self st; os := o |}).

Definition is_alive : M bool :=
  result <- call_execute (CmdStr "ps -Ao pgid") ps_kwargs ;;
  match Outcome.stdout result with
  | None => raise AttributeError
  | Some b =>
      match Text.utf8_decode b with
      | None => raise UnicodeDecodeError
      | Some text =>
          let pgids := Text.split text in
          pid <- process_pid ;;
          ret (Text.mem (Text.str_of_int pid) pgids)
      end
  end.

Definition join : M Outcome.t :=
  s <- get ;;
  thread_join (timeout (conf s)) ;;
  let alive := if check_pg_alive (conf s) then is_alive else thread_is_alive in
  t <- thread_is_alive ;;
  modify (set_exit_timeout t) ;;
  a <- alive ;;
  (if a then
     modify (fun s => set_exit_timeout_pg (check_pg_alive (conf s)) s) ;;
     pid <- process_pid ;;
     m <- eval (Format.format "{}: is still alive. Terminating now..." [Format.AInt pid]) ;;
     lg INFO m ;;
     pid <- process_pid ;;
     os_killpg pid SIGTERM ;;
     thread_join (Some TIME_UNTIL_SIGKILL_SECS) ;;
     t <- thread_is_alive ;;
     modify (set_exit_force t) ;;
     a <- alive ;;
     if a then
       modify (fun s => set_exit_force_pg (check_pg_alive (conf s)) s) ;;
       pid <- process_pid ;;
       m <- eval (Format.format
                    "{}: is still alive after SIGTERM. Pressing the big red button..."
                    [Format.AInt pid]) ;;
       lg WARNING m ;;
       pid <- process_pid ;;
       os_killpg pid SIGKILL ;;
       t <- thread_is_alive ;;
       if t then
         pid <- process_pid ;;
         m <- eval (Format.format
                      "{self.process.pid}: is still alive after SIGKILL. May God have mercy on our souls..."
                      [Format.AInt pid]) ;;
         lg ERROR m
       else ret tt
     else ret tt
   else ret tt) ;;
  s <- get ;;
  ret (outcome s).

End Methods.

(** [execute(command, **kwargs)].  [is_alive] calls [execute] again, for
    [ps]; the argument [fuel] bounds that nesting. *)
Fixpoint execute (fuel : nat) (command : Command) (kwargs : Kwargs) (o : OS)
  : Res Outcome.t * OS :=
  match fuel with
  | O => (NoFuel, o)
  | S fuel' =>
      match __init__ command kwargs with
      | Ret proc =>
          let '(r, st) := (run ;; join (execute fuel')) {| self := proc; os := o |} in
          (r, os st)
      | Raise e => (Raise e, o)
      | Hang => (Hang, o)
      | NoFuel => (NoFuel, o)
      end
  end.

(* ================================================================== *)
(** ** The vocabulary of the statements *)

(** A property of the state that a computation cannot break, whatever its
    result. *)
Definition preserves {A} (P : St -> Prop) (m : M A) : Prop :=
  forall st, P st -> P (snd (m st)).

(** The part of the object that only [join] writes: the options and the
    four escalation flags. *)
Definition ctl (s : ProcessWrapper) : Config * bool * bool * bool * bool :=
  (conf s, exit_timeout s, exit_force s, exit_timeout_pg s, exit_force_pg s).

Definition unchanged {A} (m : M A) : Prop :=
  forall st, ctl (self (snd (m st))) = ctl (self st).

(** The group flags are raised only under the option. *)
Definition guarded_ctl (c : Config * bool * bool * bool * bool) : Prop :=
  let '(cf, _, _, etp, efp) := c in
  (etp = true -> check_pg_alive cf = true) /\
  (efp = true -> check_pg_alive cf = true).

Definition guarded (s : ProcessWrapper) : Prop := guarded_ctl (ctl s).

Definition ps_argv : list string := ["ps"; "-Ao"; "pgid"].

Definition popen_error_message (argv : list string) : Format.message :=
  [Format.Lit "Couldn't Popen command "; Format.Val (Format.AList argv) ""].

(** The system refuses the launch with [e]: [Popen] raises it. *)
Definition launch_fails (st : St) (e : exn) : Prop :=
  fst (Popen_call (command (conf (self st))) (stdin (conf (self st))) st) = Raise e.



(** The object once the waiter has been seen to finish with [c]. *)
Definition finished (c : Completion) (rest : list tick) (p : Popen.t)
    (s : ProcessWrapper) : ProcessWrapper :=
  set_thread (Some Stopped) (target_end c (set_process (Some (with_ticks rest p)) s)).

(** The next process that the system starts runs to completion and prints
    [text]: this is how a working [ps] answers. *)
Definition ps_answers (o : OS) (text : Text.str) : Prop :=
  exists hpid c rest ws more,
    spawns o = Spawned hpid (Done c :: rest) ws :: more /\
    Text.utf8_decode (out c) = Some text.


(** No escalation flag is up. *)
Definition fresh (s : ProcessWrapper) : Prop :=
  exit_timeout s = false /\ exit_force s = false /\
  exit_timeout_pg s = false /\ exit_force_pg s = false.


Definition sleep_kwargs (check : bool) : Kwargs :=
  {| kw_timeout := Some (Some (1 # 5)%Q); kw_stdout := None; kw_stderr := None;
     kw_stdin := None; kw_cwd := None; kw_input := None;
     kw_delayed_inputs := None; kw_disable_communicate := None;
     kw_check_pg_alive := Some check; kw_env := None |}.

(** Lines 135-137 of [join]: the wait for the waiter thread, bounded by the
    timeout, and the reading of its state into [exit_timeout]. *)
Definition first_wait : M bool :=
  s <- get ;;
  thread_join (timeout (conf s)) ;;
  t <- thread_is_alive ;;
  modify (set_exit_timeout t) ;;
  ret t.

(** The Outcome [o] with [timeout] lowered. *)
Definition without_timeout (o : Outcome.t) : Outcome.t :=
  {| Outcome.returncode := Outcome.returncode o; Outcome.stdout := Outcome.stdout o;
     Outcome.stderr := Outcome.stderr o; Outcome.timeout := false;
     Outcome.killed := Outcome.killed o; Outcome.timeout_pg := Outcome.timeout_pg o;
     Outcome.killed_pg := Outcome.killed_pg o |}.

(** What a later [join] may do to the Outcome [o1] of an earlier one. *)
Definition later_outcome (cpa : bool) (o1 : Outcome.t) (r2 : Res Outcome.t) : Prop :=
  (forall o2, r2 = Ret o2 ->
     Outcome.returncode o2 = Outcome.returncode o1 /\
     Outcome.stdout o2 = Outcome.stdout o1 /\
     Outcome.stderr o2 = Outcome.stderr o1 /\
     Outcome.timeout o2 = false /\
     (Outcome.timeout_pg o1 = true -> Outcome.timeout_pg o2 = true) /\
     (Outcome.killed_pg o1 = true -> Outcome.killed_pg o2 = true)) /\
  (cpa = false -> r2 = Ret (without_timeout o1)).

(* ================================================================== *)
(** ** Scenarios *)

Module Scenario.

(** The object that [__init__] builds for an argument vector, a timeout,
    the group check and staged inputs, everything else left to its default
    except [stdin]. *)
Definition object (argv : list string) (t : option Q) (check : bool)
    (staged : list value) (sin : Stdio) : ProcessWrapper :=
  {| conf := {| command := argv; timeout := t; stdout := DEVNULL; stderr := DEVNULL;
                stdin := sin; cwd := None; inputs := None; delayed_inputs := staged;
                disable_communicate := false; check_pg_alive := check; env := None |};
     process := None; thread := None; killed := false;
     stdout_res := None; stderr_res := None; exit_timeout := false;
     exit_force := false; exit_timeout_pg := false; exit_force_pg := false |}.

Definition kwargs (t : option Q) (check : bool) (staged : list value) (sin : Stdio)
  : Kwargs :=
  {| kw_timeout := Some t; kw_stdout := None; kw_stderr := None; kw_stdin := Some sin;
     kw_cwd := None; kw_input := None; kw_delayed_inputs := Some staged;
     kw_disable_communicate := None; kw_check_pg_alive := Some check; kw_env := None |}.

(** The state in which [run] leaves a new object. *)
Definition launched (proc : ProcessWrapper) (o : OS) : St :=
  snd (run {| self := proc; os := o |}).

Definition system (answers : list spawn_res) : OS :=
  {| spawns := answers; kills := []; sleeps := []; trace := [] |}.

(** A child that exits with [code], printing nothing, the first time the
    waiter is looked at. *)
Definition exits (pid : Z) (code : Z) : spawn_res :=
  Spawned pid [Done {| exit_code := code; out := []; err := [] |}] [].

(** A run of [ps] that prints [listing]. *)
Definition ps (listing : string) : spawn_res :=
  Spawned 7 [Done {| exit_code := 0; out := list_byte_of_string listing; err := [] |}] [].

Definition nl : string := newline.

(** [true] under a five-second timeout, group check on; [ps] finds nothing
    of the child's group. *)
Definition quick : St :=
  launched (object ["true"] (Some 5%Q) true [] DEVNULL)
           (system [exits 100 0; ps ("PGID" ++ nl ++ "    1" ++ nl)%string]).

(** A shell that leaves a job behind in its group and exits at once: [ps]
    still lists the group after the wait, and no more after the SIGTERM. *)
Definition orphaning : St :=
  launched (object ["sh"; "-c"; "sleep 60 &"] (Some 5%Q) true [] DEVNULL)
           (system [exits 100 0;
                    ps ("PGID" ++ nl ++ "    1" ++ nl ++ "  100" ++ nl)%string;
                    ps ("PGID" ++ nl ++ "    1" ++ nl)%string]).

Definition orphaning_outcome : Outcome.t :=
  {| Outcome.returncode := Some 0; Outcome.stdout := None; Outcome.stderr := None;
     Outcome.timeout := false; Outcome.killed := false;
     Outcome.timeout_pg := true; Outcome.killed_pg := false |}.

(** [sleep 5] under a timeout of a fifth of a second, group check off: the
    waiter is still running after the wait and ends on the SIGTERM. *)
Definition sleeper : St :=
  launched (object ["sleep"; "5"] (Some (1 # 5)%Q) false [] DEVNULL)
           (system [Spawned 100 [Running; Running; Running;
                                  Done {| exit_code := -15; out := []; err := [] |}] []]).

Definition sleeper_outcome : Outcome.t :=
  {| Outcome.returncode := Some (-15); Outcome.stdout := None; Outcome.stderr := None;
     Outcome.timeout := true; Outcome.killed := false;
     Outcome.timeout_pg := false; Outcome.killed_pg := false |}.

(** The same object after its first [join]. *)
Definition sleeper_joined : St := snd (join (execute 1) sleeper).

(** A child whose group is to be probed while the system has no process
    slot left for [ps]. *)
Definition starved : St :=
  {| self := self quick; os := system [Refused BlockingIOError] |}.

(** The same probe when [ps] prints a byte that is not UTF-8. *)
Definition garbled : St :=
  {| self := self quick;
     os := system [Spawned 7 [Done {| exit_code := 0; out := [xff]; err := [] |}] []] |}.

(** A launch that the system refuses. *)
Definition missing : St :=
  {| self := object ["no-such-program"] None true [] DEVNULL;
     os := system [Refused FileNotFoundError] |}.

Definition hello : bytes := list_byte_of_string "hello".

(** [cat] fed in stages, whose stdin breaks at the second write. *)
Definition staged : list value :=
  [VBytes hello; VFloat (1 # 10)%Q; VBytes hello; VInt 1; VBytes hello].

Definition broken_pipe : St :=
  {| self := set_thread (Some Initial)
               (set_process
                  (Some {| Popen.args := ["cat"]; Popen.pid := 100;
                           Popen.returncode := None; Popen.stdin := true;
                           Popen.ticks := [Done {| exit_code := 0; out := []; err := [] |}];
                           Popen.writes := [WriteOk; WriteFails BrokenPipeError] |})
                  (object ["cat"] (Some 5%Q) false staged PIPE));
     os := system [] |}.

(** The same, once the thread has been started and the first two staged
    steps have been carried out. *)
Definition broken_pipe_fed : St :=
  snd (feed_step (VFloat (1 # 10)%Q)
         (snd (feed_step (VBytes hello) (snd (emit EThreadStart broken_pipe))))).


End Scenario.

(* ================================================================== *)
(** ** What [join] sends, and in which order *)

(** The signals of the [os.killpg] calls recorded in a trace, in order. *)
Definition killpg_calls (tr : list event) : list Signal :=
  flat_map (fun e => match e with EKillpg _ sig _ => [sig] | _ => [] end) tr.

Definition sent (st : St) : list Signal := killpg_calls (trace (os st)).

(** [m] makes no [os.killpg] call. *)
Definition quiet {A} (m : M A) : Prop := forall st, sent (snd (m st)) = sent st.

(** A Hoare triple with a postcondition for normal return and one for
    every other way out. *)
Definition triple {A} (P : St -> Prop) (m : M A) (Q : A -> St -> Prop)
    (E : St -> Prop) : Prop :=
  forall st, P st ->
    match m st with
    | (Ret a, st') => Q a st'
    | (_, st') => E st'
    end.

(** The escalation of [join] is SIGTERM, then SIGKILL, and nothing else. *)
Definition escalation (d : list Signal) : Prop :=
  d = [] \/ d = [SIGTERM] \/ d = [SIGTERM; SIGKILL].

(** What the signals sent by one [join] tell about the flags, with the
    group check off. *)
Definition recorded (s' : ProcessWrapper) (d : list Signal) : Prop :=
  d = [] \/
  (d = [SIGTERM] /\ exit_timeout s' = true) \/
  (d = [SIGTERM; SIGKILL] /\ exit_timeout s' = true /\ exit_force s' = true).

(* ================================================================== *)
(** ** The staged inputs *)

(** What one staged step does when it goes through. *)
Definition step_events (v : value) : list event :=
  if type_is v TInt || type_is v TFloat then [ESleep v]
  else if type_is v TBytes then [EWrite (as_bytes v) WriteOk]
  else [].

Definition grow (d : list event) (o : OS) : OS :=
  {| spawns := spawns o; kills := kills o; sleeps := sleeps o; trace := trace o ++ d |}.

(* ================================================================== *)
(** ** [run] *)



(* ================================================================== *)
(** ** The attribute [killed] *)

(** [m] leaves [self.killed] as it is. *)
Definition keeps_killed {A} (m : M A) : Prop :=
  forall st, killed (self (snd (m st))) = killed (self st).

(* ================================================================== *)
(** ** What [is_alive] reads in the listing of [ps] *)

(** The text of a listing: the header, then one line per group, the
    number after a space. *)
Definition listing (pgids : list Z) : Text.str :=
  Text.of_string "PGID" ++ [10%N]
  ++ flat_map (fun g => [32%N] ++ Text.str_of_int g ++ [10%N]) pgids.

Definition solid (w : Text.str) : Prop :=
  w <> [] /\ Forall (fun c => Text.isspace c = false) w.

(* ================================================================== *)
(** * Theorems *)

Example format_positional :
  Format.format "{}: is still alive. Terminating now..." [Format.AInt 42]
  = Ret [Format.Val (Format.AInt 42) ""; Format.Lit ": is still alive. Terminating now..."].
Proof. reflexivity. Qed.

Example format_named_field :
  Format.format "{self.process.pid}: is still alive after SIGKILL." [Format.AInt 42]
  = Raise KeyError.
Proof. reflexivity. Qed.

Example split_ps_output :
  option_map Text.split
    (Text.utf8_decode (list_byte_of_string (" PGID" ++ String "010" "  100" ++ String "010" " 2345" ++ String "010" "")%string))
  = Some [Text.of_string "PGID"; Text.str_of_int 100; Text.str_of_int 2345].
Proof. reflexivity. Qed.

Example shlex_ps : Shlex.split "ps -Ao pgid" = Ret ["ps"; "-Ao"; "pgid"].
Proof. reflexivity. Qed.

Example shlex_quotes : Shlex.split "sh -c 'sleep 5 &'" = Ret ["sh"; "-c"; "sleep 5 &"].
Proof. reflexivity. Qed.

Example shlex_empty : Shlex.split "" = Ret [].
Proof. reflexivity. Qed.

(** A child that ignores nothing: [sleep 5] under a timeout, killed by the
    SIGTERM. *)
Example execute_sleep_timeout :
  fst (execute 2 (CmdStr "sleep 5")
         {| kw_timeout := Some (Some (1 # 5)%Q); kw_stdout := None; kw_stderr := None;
            kw_stdin := None; kw_cwd := None; kw_input := None;
            kw_delayed_inputs := None; kw_disable_communicate := None;
            kw_check_pg_alive := Some false; kw_env := None |}
         {| spawns := [Spawned 100 [Running; Running; Running;
                                     Done {| exit_code := -15; out := []; err := [] |}] []];
            kills := []; sleeps := []; trace := [] |})
  = Ret {| Outcome.returncode := Some (-15); Outcome.stdout := None;
           Outcome.stderr := None; Outcome.timeout := true; Outcome.killed := false;
           Outcome.timeout_pg := false; Outcome.killed_pg := false |}.
Proof. reflexivity. Qed.

(** The two ways of numbering fields do not mix. *)
Example format_mixed_numbering :
  Format.format "{0} {}" [Format.AInt 1; Format.AInt 2] = Raise ValueError /\
  Format.format "{} {0}" [Format.AInt 1; Format.AInt 2] = Raise ValueError /\
  Format.format "{1} {0}" [Format.AInt 1; Format.AInt 2]
  = Ret [Format.Val (Format.AInt 2) ""; Format.Lit " "; Format.Val (Format.AInt 1) ""].
Proof. repeat split. Qed.

(** [time.sleep(2**64)] raises [OverflowError] and so does [time.sleep(-2**64)];
    9223372036 is the longest whole number of seconds that converts, and then
    the system may still refuse it. *)
Example sleep_out_of_range st :
  time_sleep (VInt (2 ^ 64)) st = (Raise OverflowError, st) /\
  time_sleep (VInt (- 2 ^ 64)) st = (Raise OverflowError, st) /\
  time_sleep (VInt (-1)) st = (Raise ValueError, st) /\
  time_sleep (VFloat (-1 # 1000000000000)%Q) st = (Raise ValueError, st) /\
  fits (VInt 9223372036) = true /\ fits (VInt 9223372037) = false /\
  fst (time_sleep (VInt 9223372036)
         {| self := self st;
            os := {| spawns := []; kills := []; sleeps := [Some OSError]; trace := [] |} |})
  = Raise OSError.
Proof. repeat split. Qed.

(** A staged sleep that is too long ends the waiter thread at once: [run]
    returns as usual, and nothing after that entry is fed. *)
Example staged_sleep_too_long :
  let st := Scenario.launched
              (Scenario.object ["cat"] None false
                 [VInt (2 ^ 64); VBytes Scenario.hello] PIPE)
              (Scenario.system [Scenario.exits 100 0]) in
  thread (self st) = Some (Started (Some OverflowError)) /\
  trace (os st) = [EPopen ["cat"] (inr 100); EThreadStart].
Proof. split; reflexivity. Qed.

(* ================================================================== *)
(** ** Reasoning about method bodies *)

Lemma bind_ret_inv {A B} (m : M A) (f : A -> M B) st b st' :
  bind m f st = (Ret b, st') ->
  exists a st1, m st = (Ret a, st1) /\ f a st1 = (Ret b, st').
Proof.
  unfold bind. destruct (m st) as [[a | e | | ] st1]; intros H; try discriminate.
  exists a, st1. split; [reflexivity | exact H].
Qed.

Lemma bind_eq {A B} (m : M A) (f : A -> M B) st a st1 :
  m st = (Ret a, st1) -> bind m f st = f a st1.
Proof. unfold bind. intros ->. reflexivity. Qed.

Lemma preserves_bind {A B} P (m : M A) (f : A -> M B) :
  preserves P m -> (forall a, preserves P (f a)) -> preserves P (bind m f).
Proof.
  intros Hm Hf st HP. unfold bind. specialize (Hm st HP).
  destruct (m st) as [[a | e | | ] st1]; simpl in *; try exact Hm.
  apply Hf. exact Hm.
Qed.

Lemma preserves_ret {A} P (a : A) : preserves P (ret a).
Proof. intros st HP. exact HP. Qed.

Lemma preserves_raise {A} P e : preserves P (@raise A e).
Proof. intros st HP. exact HP. Qed.

Lemma preserves_eval {A} P (r : Res A) : preserves P (eval r).
Proof. intros st HP. exact HP. Qed.

Lemma preserves_get P : preserves P get.
Proof. intros st HP. exact HP. Qed.

Lemma preserves_catch {A} P (m : M A) : preserves P m -> preserves P (catch m).
Proof.
  intros Hm st HP. unfold catch. specialize (Hm st HP).
  destruct (m st) as [[a | e | | ] st1]; exact Hm.
Qed.

Lemma unchanged_bind {A B} (m : M A) (f : A -> M B) :
  unchanged m -> (forall a, unchanged (f a)) -> unchanged (bind m f).
Proof.
  intros Hm Hf st. unfold bind. specialize (Hm st).
  destruct (m st) as [[a | e | | ] st1]; simpl in *; try exact Hm.
  rewrite Hf. exact Hm.
Qed.

Lemma unchanged_ret {A} (a : A) : unchanged (ret a).
Proof. intros st. reflexivity. Qed.

Lemma unchanged_raise {A} e : unchanged (@raise A e).
Proof. intros st. reflexivity. Qed.

Lemma unchanged_eval {A} (r : Res A) : unchanged (eval r).
Proof. intros st. reflexivity. Qed.

Lemma unchanged_get : unchanged get.
Proof. intros st. reflexivity. Qed.

Lemma unchanged_emit e : unchanged (emit e).
Proof. intros st. reflexivity. Qed.

Lemma unchanged_lg l m : unchanged (lg l m).
Proof. intros st. reflexivity. Qed.

Lemma unchanged_os_killpg pgid sig : unchanged (os_killpg pgid sig).
Proof. intros st. reflexivity. Qed.

Lemma unchanged_observe : unchanged observe.
Proof.
  intros [s o]. unfold observe. simpl.
  destruct (thread s) as [[ | crashed | ] | ]; try reflexivity.
  destruct (process s) as [p | ] eqn:Hp; try reflexivity.
  destruct (Popen.ticks p) as [ | [ | c] rest]; try reflexivity.
  destruct crashed; try reflexivity.
  unfold target_end. simpl. destruct (disable_communicate (conf s)); reflexivity.
Qed.

Lemma unchanged_process_pid : unchanged process_pid.
Proof.
  apply unchanged_bind; [apply unchanged_get | intros s].
  destruct (process s); [apply unchanged_ret | apply unchanged_raise].
Qed.

Lemma unchanged_thread_is_alive : unchanged thread_is_alive.
Proof.
  apply unchanged_bind; [apply unchanged_get | intros s].
  destruct (thread s); [ | apply unchanged_raise].
  apply unchanged_bind; [apply unchanged_observe | intros _].
  apply unchanged_bind; [apply unchanged_get | intros s']. apply unchanged_ret.
Qed.

Lemma unchanged_thread_join t : unchanged (thread_join t).
Proof.
  apply unchanged_bind; [apply unchanged_get | intros s].
  assert (H : unchanged (emit (EWait t) ;; observe ;; s' <- get ;;
                         match t with
                         | None => if started (thread s') then eval Hang else ret tt
                         | Some _ => ret tt
                         end)).
  { apply unchanged_bind; [apply unchanged_emit | intros _].
    apply unchanged_bind; [apply unchanged_observe | intros _].
    apply unchanged_bind; [apply unchanged_get | intros s'].
    destruct t; [apply unchanged_ret | ].
    destruct (started (thread s')); [apply unchanged_eval | apply unchanged_ret]. }
  destruct (thread s) as [[ | crashed | ] | ];
    first [exact H | apply unchanged_raise].
Qed.

(** The prober leaves the object alone: it only talks to the system. *)
Lemma is_alive_self ex st : self (snd (is_alive ex st)) = self st.
Proof.
  unfold is_alive, bind, call_execute.
  destruct (ex _ _ (os st)) as [[res | e | | ] o]; simpl; try reflexivity.
  destruct (Outcome.stdout res) as [b | ]; simpl; try reflexivity.
  destruct (Text.utf8_decode b) as [text | ]; simpl; try reflexivity.
  unfold process_pid, bind, get; simpl.
  destruct (process (self st)); reflexivity.
Qed.

Lemma unchanged_is_alive ex : unchanged (is_alive ex).
Proof. intros st. rewrite is_alive_self. reflexivity. Qed.

Lemma preserves_of_unchanged {A} (I : Config * bool * bool * bool * bool -> Prop) (m : M A) :
  unchanged m -> preserves (fun st => I (ctl (self st))) m.
Proof. intros H st HP. rewrite H. exact HP. Qed.

Create HintDb frame.

#[local] Hint Resolve unchanged_ret unchanged_raise unchanged_eval unchanged_get
  unchanged_emit unchanged_lg unchanged_os_killpg unchanged_observe
  unchanged_process_pid unchanged_thread_is_alive unchanged_thread_join
  unchanged_is_alive : frame.

(** Solves [unchanged m] for straight-line code over the calls above. *)
Ltac frame :=
  repeat first
    [ solve [ auto with frame ]
    | match goal with
      | |- unchanged (if ?b then _ else _) => destruct b
      | |- unchanged (match ?x with _ => _ end) => destruct x
      end
    | apply unchanged_bind; [ | intros ? ] ].

(** [join] ends by building the dict from the object. *)
Lemma join_ret_outcome ex st o st' :
  join ex st = (Ret o, st') -> o = outcome (self st').
Proof.
  unfold join. intros H.
  apply bind_ret_inv in H. destruct H as (s0 & st0 & _ & H).
  apply bind_ret_inv in H. destruct H as (? & st1 & _ & H).
  apply bind_ret_inv in H. destruct H as (t & st2 & _ & H).
  apply bind_ret_inv in H. destruct H as (? & st3 & _ & H).
  apply bind_ret_inv in H. destruct H as (a & st4 & _ & H).
  apply bind_ret_inv in H. destruct H as (? & st5 & _ & H).
  unfold bind, get, ret in H. inversion H. reflexivity.
Qed.

(** With the option off, [join] never consults the prober. *)
Lemma join_without_prober ex ex' st :
  check_pg_alive (conf (self st)) = false -> join ex st = join ex' st.
Proof.
  intros H. unfold join.
  rewrite (bind_eq get _ st (self st) st eq_refl).
  rewrite (bind_eq get _ st (self st) st eq_refl).
  rewrite H. reflexivity.
Qed.




Lemma join_conf ex st : conf (self (snd (join ex st))) = conf (self st).
Proof.
  assert (H : preserves (fun st' => conf (self st') = conf (self st)) (join ex)).
  { unfold join.
    repeat first
      [ apply (preserves_of_unchanged (fun c => fst (fst (fst (fst c))) = conf (self st)));
        solve [ frame ]
      | apply preserves_ret
      | match goal with
        | |- preserves _ (if ?b then _ else _) => destruct b
        | |- preserves _ (modify _) => intros ? ?; simpl; assumption
        end
      | apply preserves_bind; [ | intros ? ] ]. }
  apply H. reflexivity.
Qed.

(** A new object starts with all flags down. *)
Lemma init_guarded command kwargs s :
  __init__ command kwargs = Ret s -> guarded s.
Proof.
  unfold __init__. destruct command as [str | l].
  - destruct (Shlex.split str); intros H; inversion H; subst.
    split; simpl; discriminate.
  - intros H; inversion H; subst. split; simpl; discriminate.
Qed.


Lemma execute_ps n hpid c rest ws more ks sl tr :
  execute (S n) (CmdStr "ps -Ao pgid") ps_kwargs
    {| spawns := Spawned hpid (Done c :: rest) ws :: more; kills := ks; sleeps := sl;
       trace := tr |}
  = (Ret {| Outcome.returncode := Some (exit_code c); Outcome.stdout := Some (out c);
            Outcome.stderr := None; Outcome.timeout := false; Outcome.killed := false;
            Outcome.timeout_pg := false; Outcome.killed_pg := false |},
     {| spawns := more; kills := ks; sleeps := sl;
        trace := ((tr ++ [EPopen ps_argv (inr hpid)]) ++ [EThreadStart]) ++ [EWait None] |}).
Proof. reflexivity. Qed.

Lemma call_execute_eq ex cmd kw st r o :
  ex cmd kw (os st) = (r, o) ->
  call_execute ex cmd kw st = (r, {| self := self st; os := o |}).
Proof. unfold call_execute. intros ->. reflexivity. Qed.

Lemma is_alive_ps n st p hpid c rest ws more text :
  process (self st) = Some p ->
  spawns (os st) = Spawned hpid (Done c :: rest) ws :: more ->
  Text.utf8_decode (out c) = Some text ->
  is_alive (execute (S n)) st =
    (Ret (Text.mem (Text.str_of_int (Popen.pid p)) (Text.split text)),
     {| self := self st;
        os := {| spawns := more; kills := kills (os st); sleeps := sleeps (os st);
                 trace := ((trace (os st) ++ [EPopen ps_argv (inr hpid)]) ++ [EThreadStart]) ++ [EWait None] |} |}).
Proof.
  intros Hp Hs Hd. destruct st as [s [sp ks sl tr]].
  cbn [os self spawns kills sleeps trace] in *. subst sp.
  unfold is_alive.
  erewrite bind_eq; [ | apply call_execute_eq; apply execute_ps ].
  cbn [Outcome.stdout self]. rewrite Hd.
  unfold process_pid, bind, get, ret. cbn [self]. rewrite Hp. reflexivity.
Qed.

Lemma bind_get {B} (f : ProcessWrapper -> M B) st : bind get f st = f (self st) st.
Proof. reflexivity. Qed.

Lemma run_refused st e more a l :
  command (conf (self st)) = a :: l ->
  spawns (os st) = Refused e :: more ->
  run st =
    (Raise e,
     {| self := self st;
        os := {| spawns := more; kills := kills (os st); sleeps := sleeps (os st);
                 trace := if is_OSError e
                          then (trace (os st) ++ [EPopen (a :: l) (inl e)]) ++
                               [ELog ERROR (popen_error_message (a :: l))]
                          else trace (os st) ++ [EPopen (a :: l) (inl e)] |} |}).
Proof.
  intros Hc Hs. unfold run. rewrite bind_get. rewrite Hc.
  unfold bind at 1. unfold catch, Popen_call. rewrite Hs.
  destruct (is_OSError e); reflexivity.
Qed.

Lemma execute_ps_refused n e more ks sl tr :
  execute (S n) (CmdStr "ps -Ao pgid") ps_kwargs
    {| spawns := Refused e :: more; kills := ks; sleeps := sl; trace := tr |}
  = (Raise e,
     {| spawns := more; kills := ks; sleeps := sl;
        trace := if is_OSError e
                 then (tr ++ [EPopen ps_argv (inl e)]) ++
                      [ELog ERROR (popen_error_message ps_argv)]
                 else tr ++ [EPopen ps_argv (inl e)] |}).
Proof.
  cbn [execute].
  change (__init__ (CmdStr "ps -Ao pgid") ps_kwargs) with
    (Ret {| conf := {| command := ps_argv; timeout := None; stdout := PIPE;
                       stderr := DEVNULL; stdin := DEVNULL; cwd := None;
                       inputs := None; delayed_inputs := [];
                       disable_communicate := false; check_pg_alive := false;
                       env := None |};
            process := None; thread := None; killed := false;
            stdout_res := None; stderr_res := None; exit_timeout := false;
            exit_force := false; exit_timeout_pg := false; exit_force_pg := false |}).
  cbv iota. unfold bind at 1.
  erewrite run_refused; [ | reflexivity | reflexivity ].
  reflexivity.
Qed.

Lemma is_alive_refused n st e more :
  spawns (os st) = Refused e :: more ->
  fst (is_alive (execute (S n)) st) = Raise e.
Proof.
  intros Hs. destruct st as [s [sp ks sl tr]].
  cbn [os self spawns kills sleeps trace] in *. subst sp.
  unfold is_alive. unfold bind at 1.
  erewrite call_execute_eq; [ | apply execute_ps_refused ].
  reflexivity.
Qed.

(** C7. When the system refuses the launch, [run] raises the very
    exception of [Popen] to its caller, leaves the object as it was (so
    [self.thread] stays [None]) and records one attempt at most: what it
    adds to the trace is that attempt, if [Popen] got as far as the system,
    and the error record when the exception is an [OSError]; no second
    attempt, no thread start. *)
Theorem run_propagates_launch_failure st e :
  launch_fails st e ->
  fst (run st) = Raise e /\
  self (snd (run st)) = self st /\
  trace (os (snd (run st))) =
    trace (os st)
    ++ match command (conf (self st)) with
       | [] => []
       | _ :: _ => [EPopen (command (conf (self st))) (inl e)]
       end
    ++ (if is_OSError e
        then [ELog ERROR (popen_error_message (command (conf (self st))))]
        else []).
Proof.
  unfold launch_fails, run. destruct st as [s [sp ks sl tr]].
  rewrite bind_get. cbn [self].
  unfold bind at 1. unfold catch.
  destruct (Popen_call (command (conf s)) (stdin (conf s)) _) as [r st1] eqn:HP.
  cbn [fst]. intros ->.
  unfold Popen_call in HP. cbn [os self spawns kills sleeps trace] in HP.
  destruct (command (conf s)) as [ | a l] eqn:Hc.
  - inversion HP; subst. cbn. rewrite app_nil_r. auto.
  - destruct sp as [ | [pid ticks writes | e'] more]; inversion HP; subst; clear HP.
    + cbn. rewrite <- app_assoc. auto.
    + destruct (is_OSError e) eqn:E; cbn; rewrite E; cbn;
        rewrite <- ?app_assoc; auto.
Qed.

Lemma feed_step_other v st :
  type_is v TInt = false -> type_is v TFloat = false -> type_is v TBytes = false ->
  feed_step v st = (Ret true, st).
Proof. intros H1 H2 H3. unfold feed_step. rewrite H1, H2, H3. reflexivity. Qed.

(** C10. An entry of [delayed_inputs] whose type is neither [int], nor
    [float], nor [bytes] (a [str], for one) is passed over: its iteration
    returns at once with the state untouched, and the loop behaves as if
    the entry were not in the list. *)
Theorem feed_skips_other_types pre v post st :
  type_is v TInt = false -> type_is v TFloat = false -> type_is v TBytes = false ->
  feed_step v st = (Ret true, st) /\
  feed (pre ++ v :: post) st = feed (pre ++ post) st.
Proof.
  intros H1 H2 H3. split; [apply feed_step_other; assumption | ].
  revert st. induction pre as [ | i pre IH]; intros st.
  - cbn [app feed]. rewrite (bind_eq _ _ _ _ _ (feed_step_other v st H1 H2 H3)).
    reflexivity.
  - cbn [app feed]. unfold bind.
    destruct (feed_step i st) as [[[ | ] | e | | ] st1]; try reflexivity.
    apply IH.
Qed.



Lemma is_alive_shape ex st :
  exists r o, is_alive ex st = (r, {| self := self st; os := o |}).
Proof.
  destruct (is_alive ex st) as [r st'] eqn:E.
  exists r, (os st'). pose proof (is_alive_self ex st) as H. rewrite E in H.
  cbn [snd] in H. rewrite <- H. destruct st'; reflexivity.
Qed.



Lemma finished_ctl c rest p s : ctl (finished c rest p s) = ctl s.
Proof.
  unfold finished, target_end. cbn. destruct (disable_communicate (conf s)); reflexivity.
Qed.





(** C5 (the code departs from the claim). Once the waiter thread has
    finished, [send_signal] raises [AttributeError]: the warning's arguments
    read the attribute [pd] of the [Popen] handle, which has none of that
    name.  Nothing is sent and nothing is logged; the object and the system
    are as before. *)
Theorem send_signal_after_exit sig st p a l :
  thread (self st) = Some Stopped ->
  process (self st) = Some p ->
  command (conf (self st)) = a :: l ->
  send_signal sig st = (Raise AttributeError, st).
Proof.
  intros Ht Hp Hc. unfold send_signal.
  assert (Ha : thread_is_alive st = (Ret false, st)).
  { unfold thread_is_alive. rewrite bind_get, Ht.
    unfold bind, observe, get, ret. rewrite Ht. cbn. rewrite Ht. reflexivity. }
  rewrite (bind_eq _ _ _ _ _ Ha). rewrite bind_get, Hc, Hp.
  reflexivity.
Qed.

(** C4 (the code departs from the claim). A child that survives both
    signals: [join] sends SIGTERM, waits, sends SIGKILL, and then raises
    [KeyError] while formatting the message about the survivor, whose
    template names a keyword field [self] that [format] is not given.  No
    record of level ERROR or CRITICAL is logged and no Outcome is returned. *)
Theorem join_survivor_raises :
  execute 2 (CmdList ["sleep"; "100"]) (sleep_kwargs false)
    {| spawns := [Spawned 100 [] []]; kills := []; sleeps := []; trace := [] |}
  = (Raise KeyError,
     {| spawns := []; kills := []; sleeps := [];
        trace :=
          [EPopen ["sleep"; "100"] (inr 100); EThreadStart; EWait (Some (1 # 5)%Q);
           ELog INFO [Format.Val (Format.AInt 100) "";
                      Format.Lit ": is still alive. Terminating now..."];
           EKillpg 100 SIGTERM None;
           EWait (Some TIME_UNTIL_SIGKILL_SECS);
           ELog WARNING
             [Format.Val (Format.AInt 100) "";
              Format.Lit ": is still alive after SIGTERM. Pressing the big red button..."];
           EKillpg 100 SIGKILL None] |}).
Proof. reflexivity. Qed.

(** Proves that straight-line code keeps a property [I] of the options and
    flags; [tac] deals with the assignments. *)
Ltac keeps I tac :=
  repeat first
    [ apply (preserves_of_unchanged I); solve [ frame ]
    | apply preserves_ret
    | match goal with
      | |- preserves _ (if ?b then _ else _) => destruct b
      | |- preserves _ (modify _) =>
          let s := fresh "s" in let o := fresh "o" in
          intros [s o]; unfold ctl; cbn; tac
      end
    | apply preserves_bind; [ | intros ? ] ].

Lemma join_timeout_pg_guarded ex :
  preserves (fun st => (fun c : Config * bool * bool * bool * bool =>
                          snd (fst c) = true ->
                          check_pg_alive (fst (fst (fst (fst c)))) = true)
                         (ctl (self st)))
            (join ex).
Proof. unfold join. keeps (fun c : Config * bool * bool * bool * bool =>
                          snd (fst c) = true ->
                          check_pg_alive (fst (fst (fst (fst c)))) = true) auto. Qed.

Lemma unchanged_eq {A} (m : M A) st r st' :
  unchanged m -> m st = (r, st') -> ctl (self st') = ctl (self st).
Proof. intros U E. specialize (U st). rewrite E in U. exact U. Qed.

(** C2, as the code has it.  Starting with [exit_timeout_pg] down, a
    returned [timeout_pg] is true only if [check_pg_alive] is on and the
    prober, called right after the first wait, answered that the group is
    alive; [timeout] is then whatever the waiter's state was at that
    moment, true or false. *)
Theorem timeout_pg_means_group_alive ex st o st' :
  exit_timeout_pg (self st) = false ->
  join ex st = (Ret o, st') ->
  Outcome.timeout_pg o = true ->
  check_pg_alive (conf (self st)) = true /\
  exists t st1 st2,
    first_wait st = (Ret t, st1) /\
    is_alive ex st1 = (Ret true, st2) /\
    Outcome.timeout o = t.
Proof.
  intros Hf Hj Ho.
  assert (Hcpa : check_pg_alive (conf (self st)) = true).
  { pose proof (join_timeout_pg_guarded ex st) as H. cbv beta in H.
    rewrite Hj in H. cbn [snd] in H.
    pose proof (join_conf ex st) as Hc. rewrite Hj in Hc. cbn [snd] in Hc.
    pose proof (join_ret_outcome _ _ _ _ Hj) as Eo. subst o.
    unfold ctl in H. cbn in H. cbn in Ho. rewrite <- Hc. apply H.
    - intros E. rewrite E in Hf. discriminate.
    - exact Ho. }
  split; [exact Hcpa | ].
  unfold join in Hj. rewrite bind_get in Hj. rewrite Hcpa in Hj.
  apply bind_ret_inv in Hj. destruct Hj as ([] & sa & H1 & Hj).
  apply bind_ret_inv in Hj. destruct Hj as (t & sb & H2 & Hj).
  apply bind_ret_inv in Hj. destruct Hj as ([] & sc & H3 & Hj).
  apply bind_ret_inv in Hj. destruct Hj as (a & sd & H4 & Hj).
  apply bind_ret_inv in Hj. destruct Hj as ([] & se & H5 & Hj).
  rewrite bind_get in Hj. unfold ret in Hj. inversion Hj; subst o st'; clear Hj.
  pose proof (unchanged_eq _ _ _ _ (unchanged_thread_join _) H1) as U1.
  pose proof (unchanged_eq _ _ _ _ unchanged_thread_is_alive H2) as U2.
  pose proof (unchanged_eq _ _ _ _ (unchanged_is_alive ex) H4) as U4.
  unfold modify in H3. inversion H3; subst sc; clear H3.
  unfold ctl in U1, U2, U4. cbn in U4.
  inversion U1 as [[C1 T1 F1 TP1 FP1]]. inversion U2 as [[C2 T2 F2 TP2 FP2]].
  inversion U4 as [[C4 T4 F4 TP4 FP4]].
  destruct a.
  - exists t, {| self := set_exit_timeout t (self sb); os := os sb |}, sd.
    split; [ | split; [exact H4 | ] ].
    + unfold first_wait. rewrite bind_get.
      rewrite (bind_eq _ _ _ _ _ H1), (bind_eq _ _ _ _ _ H2). reflexivity.
    + cbn [outcome Outcome.timeout]. rewrite <- T4.
      match type of H5 with
      | ?m _ = _ =>
          assert (K : preserves (fun st => (fun c : Config * bool * bool * bool * bool =>
                                              snd (fst (fst (fst c))) = exit_timeout (self sd))
                                             (ctl (self st))) m)
      end.
      { keeps (fun c : Config * bool * bool * bool * bool =>
                 snd (fst (fst (fst c))) = exit_timeout (self sd)) auto. }
      specialize (K sd eq_refl). rewrite H5 in K. exact K.
  - unfold ret in H5. inversion H5; subst se. cbn in Ho.
    rewrite TP4, TP2, TP1, Hf in Ho. discriminate.
Qed.

Lemma join_stopped ex st :
  thread (self st) = Some Stopped ->
  later_outcome (check_pg_alive (conf (self st))) (outcome (self st)) (fst (join ex st)).
Proof.
  intros Ht. destruct st as [s o]. destruct s as [cf pr th k so se et ef etp efp].
  cbn [self thread] in Ht. subst th.
  destruct cf as [cmd tmo sout serr sin cwd0 inp dl dc cpa env0].
  destruct cpa.
  - destruct pr as [p | ], tmo as [q | ];
      repeat (cbv -[is_alive app];
              match goal with
              | |- context [is_alive ex ?s] =>
                  let r := fresh "r" in let o' := fresh "o" in let E := fresh "E" in
                  destruct (is_alive_shape ex s) as (r & o' & E);
                  cbv -[is_alive app] in E; rewrite E; clear E;
                  destruct r as [[ | ] | ? | | ];
                  destruct o' as [? [ | [ ? | ] ?] ?]
              end);
      cbv -[app]; (split; [ intros o2 H; inversion H; subst; cbn; repeat split; auto | discriminate ]).
  - destruct pr as [p | ], tmo as [q | ]; cbv -[app];
      (split; [ intros o2 H; inversion H; subst; cbn; repeat split; auto | reflexivity ]).
Qed.

Lemma without_timeout_id o : Outcome.timeout o = false -> without_timeout o = o.
Proof. destruct o. cbn. intros ->. reflexivity. Qed.

(** C3, as the code has it.  A second [join], called when the waiter
    thread has finished, returns (if it returns) the same return code and
    captured streams, never lowers [timeout_pg] or [killed_pg], and always
    reports [timeout] false, since it reads the waiter's state again.  With
    [check_pg_alive] off it returns the first Outcome with [timeout]
    lowered: the same Outcome exactly when the first had no timeout. *)
Theorem second_join ex st o1 st1 :
  join ex st = (Ret o1, st1) ->
  thread (self st1) = Some Stopped ->
  later_outcome (check_pg_alive (conf (self st1))) o1 (fst (join ex st1)) /\
  (check_pg_alive (conf (self st1)) = false -> Outcome.timeout o1 = false ->
   fst (join ex st1) = Ret o1).
Proof.
  intros Hj Ht. apply join_ret_outcome in Hj. subst o1.
  pose proof (join_stopped ex st1 Ht) as H. split; [exact H | ].
  intros Hc Hto. destruct H as [_ H]. rewrite (H Hc).
  rewrite without_timeout_id; [reflexivity | exact Hto].
Qed.

Lemma unchanged_catch {A} (m : M A) : unchanged m -> unchanged (catch m).
Proof.
  intros Hm st. unfold catch. specialize (Hm st).
  destruct (m st) as [[a | e | | ] st1]; exact Hm.
Qed.

Lemma unchanged_Popen_call argv sin : unchanged (Popen_call argv sin).
Proof.
  intros st. unfold Popen_call. destruct argv; [reflexivity | ].
  destruct (spawns (os st)) as [ | [pid ticks ws | e] more]; reflexivity.
Qed.

Lemma unchanged_time_sleep v : unchanged (time_sleep v).
Proof.
  unfold time_sleep. destruct (fits v); cbn [negb]; [ | auto with frame].
  destruct (negative v); [auto with frame | intros st; reflexivity].
Qed.

Lemma unchanged_stdin_write i : unchanged (stdin_write i).
Proof.
  intros st. unfold stdin_write. destruct (process (self st)) as [p | ]; [ | reflexivity].
  destruct (negb (Popen.stdin p)); reflexivity.
Qed.

Lemma unchanged_set_process v : unchanged (modify (set_process v)).
Proof. intros st. reflexivity. Qed.

Lemma unchanged_set_thread v : unchanged (modify (set_thread v)).
Proof. intros st. reflexivity. Qed.

#[local] Hint Resolve unchanged_Popen_call unchanged_time_sleep
  unchanged_stdin_write unchanged_set_process unchanged_set_thread : frame.

Lemma unchanged_feed_step i : unchanged (feed_step i).
Proof.
  unfold feed_step.
  destruct (type_is i TInt || type_is i TFloat); [frame | ].
  destruct (type_is i TBytes); [ | frame].
  apply unchanged_bind; [apply unchanged_catch; auto with frame | intros r].
  destruct r as [e | u]; [ | frame].
  destruct (is_IOError e); frame.
Qed.

Lemma unchanged_feed l : unchanged (feed l).
Proof.
  induction l as [ | i rest IH]; cbn [feed]; [frame | ].
  apply unchanged_bind; [apply unchanged_feed_step | intros [ | ]; [exact IH | frame]].
Qed.

Lemma unchanged_thread_start : unchanged thread_start.
Proof.
  unfold thread_start.
  apply unchanged_bind; [frame | intros _].
  apply unchanged_bind; [frame | intros s].
  apply unchanged_bind; [apply unchanged_catch, unchanged_feed | intros r].
  frame.
Qed.

Lemma unchanged_run : unchanged run.
Proof.
  unfold run.
  apply unchanged_bind; [frame | intros s].
  apply unchanged_bind; [apply unchanged_catch; frame | intros r].
  destruct r as [e | p].
  - destruct (is_OSError e); frame.
  - apply unchanged_bind; [frame | intros _].
    apply unchanged_bind; [frame | intros _].
    apply unchanged_thread_start.
Qed.

(** The run of [ps] inside [is_alive] does not depend on the budget: its
    own [join] has the group check off. *)
Lemma execute_ps_any_fuel n o :
  execute (S n) (CmdStr "ps -Ao pgid") ps_kwargs o
  = execute 1 (CmdStr "ps -Ao pgid") ps_kwargs o.
Proof.
  cbn [execute].
  destruct (__init__ (CmdStr "ps -Ao pgid") ps_kwargs) as [proc | e | | ] eqn:Hi;
    try reflexivity.
  assert (Hc : check_pg_alive (conf proc) = false).
  { cbv in Hi. inversion Hi. reflexivity. }
  unfold bind.
  pose proof (unchanged_run {| self := proc; os := o |}) as U.
  destruct (run {| self := proc; os := o |}) as [[[] | e | | ] st1]; try reflexivity.
  rewrite (join_without_prober (execute n) (execute 0) st1); [reflexivity | ].
  cbn [snd self] in U. unfold ctl in U. inversion U as [[C1 C2 C3 C4 C5]].
  rewrite C1. exact Hc.
Qed.

Lemma is_alive_garbled n st hpid c rest ws more :
  spawns (os st) = Spawned hpid (Done c :: rest) ws :: more ->
  Text.utf8_decode (out c) = None ->
  fst (is_alive (execute (S n)) st) = Raise UnicodeDecodeError.
Proof.
  intros Hs Hd. destruct st as [s [sp ks sl tr]].
  cbn [os self spawns kills sleeps trace] in *. subst sp.
  unfold is_alive.
  erewrite bind_eq; [ | apply call_execute_eq; apply execute_ps ].
  cbn [Outcome.stdout self]. rewrite Hd. reflexivity.
Qed.

(** C8, as the code has it.  [is_alive] runs [ps] with the group check
    off, so it never probes on behalf of its own helper (a budget of one
    nesting level is all it ever uses).  When [ps] runs to its end and what
    it prints is UTF-8 text, the result is whether the child's pid is among
    the words printed: false, without an exception, when it is not, and so
    when nothing is printed.  In the two other cases an exception reaches
    the caller: when the system refuses to start [ps], that refusal; when
    [ps] prints bytes that are not UTF-8, [UnicodeDecodeError]. *)
Theorem is_alive_answers n st p :
  process (self st) = Some p ->
  is_alive (execute (S n)) st = is_alive (execute 1) st /\
  (forall text, ps_answers (os st) text ->
     fst (is_alive (execute (S n)) st)
     = Ret (Text.mem (Text.str_of_int (Popen.pid p)) (Text.split text))) /\
  (ps_answers (os st) [] -> fst (is_alive (execute (S n)) st) = Ret false) /\
  (forall e more, spawns (os st) = Refused e :: more ->
     fst (is_alive (execute (S n)) st) = Raise e) /\
  (forall hpid c rest ws more,
     spawns (os st) = Spawned hpid (Done c :: rest) ws :: more ->
     Text.utf8_decode (out c) = None ->
     fst (is_alive (execute (S n)) st) = Raise UnicodeDecodeError).
Proof.
  intros Hp.
  assert (H2 : forall text, ps_answers (os st) text ->
     fst (is_alive (execute (S n)) st)
     = Ret (Text.mem (Text.str_of_int (Popen.pid p)) (Text.split text))).
  { intros text (hpid & c & rest & ws & more & Hs & Hd).
    rewrite (is_alive_ps n st p hpid c rest ws more text Hp Hs Hd). reflexivity. }
  split; [ | split; [exact H2 | split; [ | split] ] ].
  - unfold is_alive, call_execute, bind. rewrite execute_ps_any_fuel. reflexivity.
  - intros H. rewrite (H2 [] H). reflexivity.
  - intros e more Hs. exact (is_alive_refused n st e more Hs).
  - intros hpid c rest ws more Hs Hd. exact (is_alive_garbled n st hpid c rest ws more Hs Hd).
Qed.

(* ================================================================== *)
(** ** Scenarios, evaluated *)

Import Scenario.

Lemma pair_eta {A B} (x : A * B) (a : A) : fst x = a -> x = (a, snd x).
Proof. destruct x. cbn. intros ->. reflexivity. Qed.

Example init_builds_object :
  __init__ (CmdStr "sh -c 'sleep 60 &'") (kwargs (Some 5%Q) true [] DEVNULL)
  = Ret (object ["sh"; "-c"; "sleep 60 &"] (Some 5%Q) true [] DEVNULL).
Proof. reflexivity. Qed.



(** C2 fails as stated: in the same run [timeout_pg] is true and [timeout]
    is false. *)
Lemma timeout_pg_without_timeout :
  ~ (forall ex st o st',
       exit_timeout_pg (self st) = false ->
       join ex st = (Ret o, st') ->
       Outcome.timeout_pg o = true -> Outcome.timeout o = true).
Proof.
  intros H.
  discriminate
    (H (execute 1) orphaning orphaning_outcome (snd (join (execute 1) orphaning))
       eq_refl
       (pair_eta (join (execute 1) orphaning) (Ret orphaning_outcome) eq_refl)
       eq_refl).
Qed.

Lemma timeout_pg_means_group_alive_witness :
  exit_timeout_pg (self orphaning) = false /\
  join (execute 1) orphaning = (Ret orphaning_outcome, snd (join (execute 1) orphaning)) /\
  check_pg_alive (conf (self orphaning)) = true /\
  exists t st1 st2,
    first_wait orphaning = (Ret t, st1) /\
    is_alive (execute 1) st1 = (Ret true, st2) /\
    Outcome.timeout orphaning_outcome = t.
Proof.
  assert (J : join (execute 1) orphaning
               = (Ret orphaning_outcome, snd (join (execute 1) orphaning)))
    by exact (pair_eta (join (execute 1) orphaning) (Ret orphaning_outcome) eq_refl).
  split; [reflexivity | split; [exact J | ] ].
  apply (timeout_pg_means_group_alive (execute 1) orphaning orphaning_outcome
           (snd (join (execute 1) orphaning)));
    [reflexivity | exact J | reflexivity].
Defined.

(** C3 fails as stated: the first [join] of the sleeper reports the
    timeout; the thread has finished when it returns; the second [join]
    returns a different Outcome, with [timeout] cleared. *)
Lemma second_join_differs :
  fst (join (execute 1) sleeper) = Ret sleeper_outcome /\
  thread (self sleeper_joined) = Some Stopped /\
  fst (join (execute 1) sleeper_joined) = Ret (without_timeout sleeper_outcome) /\
  Outcome.timeout sleeper_outcome = true /\
  Outcome.timeout (without_timeout sleeper_outcome) = false /\
  without_timeout sleeper_outcome <> sleeper_outcome.
Proof.
  repeat split; try reflexivity. discriminate.
Qed.

Lemma second_join_witness :
  join (execute 1) sleeper = (Ret sleeper_outcome, sleeper_joined) /\
  thread (self sleeper_joined) = Some Stopped /\
  later_outcome (check_pg_alive (conf (self sleeper_joined))) sleeper_outcome
    (fst (join (execute 1) sleeper_joined)) /\
  (check_pg_alive (conf (self sleeper_joined)) = false ->
   Outcome.timeout sleeper_outcome = false ->
   fst (join (execute 1) sleeper_joined) = Ret sleeper_outcome).
Proof.
  assert (J : join (execute 1) sleeper = (Ret sleeper_outcome, sleeper_joined))
    by exact (pair_eta (join (execute 1) sleeper) (Ret sleeper_outcome) eq_refl).
  assert (T : thread (self sleeper_joined) = Some Stopped) by reflexivity.
  split; [exact J | split; [exact T | ] ].
  apply (second_join (execute 1) sleeper sleeper_outcome sleeper_joined J T).
Defined.

Lemma send_signal_after_exit_witness :
  thread (self sleeper_joined) = Some Stopped /\
  send_signal SIGINT sleeper_joined = (Raise AttributeError, sleeper_joined).
Proof.
  split; [reflexivity | ].
  refine (send_signal_after_exit SIGINT sleeper_joined _ "sleep" ["5"] _ _ _);
    reflexivity.
Defined.


Lemma run_propagates_launch_failure_witness :
  launch_fails missing FileNotFoundError /\
  fst (run missing) = Raise FileNotFoundError /\
  thread (self (snd (run missing))) = None.
Proof.
  assert (L : launch_fails missing FileNotFoundError) by reflexivity.
  split; [exact L | ].
  destruct (run_propagates_launch_failure missing FileNotFoundError L) as (H1 & H2 & _).
  split; [exact H1 | ]. rewrite H2. reflexivity.
Defined.

(** Output of [ps] that is not UTF-8 is not read as an empty listing: the
    decoding error reaches the caller. *)
Example is_alive_undecodable :
  fst (is_alive (execute 1) garbled) = Raise UnicodeDecodeError.
Proof. reflexivity. Qed.

(** C8 fails as stated: with no process slot left for [ps], the query
    fails and [is_alive] raises instead of answering false. *)
Lemma is_alive_raises :
  fst (is_alive (execute 1) starved) = Raise BlockingIOError /\
  fst (is_alive (execute 1) starved) <> Ret false.
Proof. split; [reflexivity | discriminate]. Qed.

Lemma is_alive_answers_witness :
  ps_answers (os quick) (Text.of_string ("PGID" ++ nl ++ "    1" ++ nl)%string) /\
  fst (is_alive (execute 3) quick) = Ret false /\
  is_alive (execute 3) quick = is_alive (execute 1) quick.
Proof.
  assert (A : ps_answers (os quick)
                (Text.of_string ("PGID" ++ nl ++ "    1" ++ nl)%string)).
  { eexists. eexists. eexists. eexists. eexists. split; reflexivity. }
  split; [exact A | ].
  destruct (is_alive_answers 2 quick
              {| Popen.args := ["true"]; Popen.pid := 100; Popen.returncode := None;
                 Popen.stdin := false;
                 Popen.ticks := [Done {| exit_code := 0; out := []; err := [] |}];
                 Popen.writes := [] |} eq_refl) as (H1 & H2 & _).
  split; [ | exact H1]. rewrite (H2 _ A). reflexivity.
Defined.

Lemma feed_skips_other_types_witness :
  feed_step (VStr "hello") broken_pipe = (Ret true, broken_pipe) /\
  feed ([VBytes hello] ++ VStr "hello" :: [VInt 1]) broken_pipe
  = feed ([VBytes hello] ++ [VInt 1]) broken_pipe.
Proof.
  apply (feed_skips_other_types [VBytes hello] (VStr "hello") [VInt 1] broken_pipe);
    reflexivity.
Defined.


Lemma killpg_calls_app a b : killpg_calls (a ++ b) = killpg_calls a ++ killpg_calls b.
Proof. apply flat_map_app. Qed.

Lemma sent_with_trace e o s :
  sent {| self := s; os := with_trace e o |} =
  sent {| self := s; os := o |} ++ killpg_calls [e].
Proof. unfold sent. cbn. apply killpg_calls_app. Qed.

Lemma quiet_bind {A B} (m : M A) (f : A -> M B) :
  quiet m -> (forall a, quiet (f a)) -> quiet (bind m f).
Proof.
  intros Hm Hf st. unfold bind. specialize (Hm st).
  destruct (m st) as [[a | e | | ] st1]; cbn [snd] in *; try exact Hm.
  rewrite Hf. exact Hm.
Qed.

Lemma quiet_catch {A} (m : M A) : quiet m -> quiet (catch m).
Proof.
  intros Hm st. unfold catch. specialize (Hm st).
  destruct (m st) as [[a | e | | ] st1]; exact Hm.
Qed.

Lemma quiet_ret {A} (a : A) : quiet (ret a).
Proof. intros st. reflexivity. Qed.

Lemma quiet_raise {A} e : quiet (@raise A e).
Proof. intros st. reflexivity. Qed.

Lemma quiet_eval {A} (r : Res A) : quiet (eval r).
Proof. intros st. reflexivity. Qed.

Lemma quiet_get : quiet get.
Proof. intros st. reflexivity. Qed.

Lemma quiet_modify f : quiet (modify f).
Proof. intros st. reflexivity. Qed.

Lemma quiet_emit e :
  match e with EKillpg _ _ _ => False | _ => True end -> quiet (emit e).
Proof.
  intros He [s o]. unfold emit, sent. cbn. rewrite killpg_calls_app.
  destruct e; try contradiction; cbn; apply app_nil_r.
Qed.

Lemma quiet_lg l m : quiet (lg l m).
Proof. apply quiet_emit. exact I. Qed.

Lemma quiet_observe : quiet observe.
Proof.
  intros [s o]. unfold observe. cbn [self].
  destruct (thread s) as [[ | crashed | ] | ]; try reflexivity.
  destruct (process s) as [p | ]; try reflexivity.
  destruct (Popen.ticks p) as [ | [ | c] rest]; reflexivity.
Qed.

Lemma quiet_process_pid : quiet process_pid.
Proof.
  apply quiet_bind; [apply quiet_get | intros s].
  destruct (process s); [apply quiet_ret | apply quiet_raise].
Qed.

Lemma quiet_thread_is_alive : quiet thread_is_alive.
Proof.
  apply quiet_bind; [apply quiet_get | intros s].
  destruct (thread s); [ | apply quiet_raise].
  apply quiet_bind; [apply quiet_observe | intros _].
  apply quiet_bind; [apply quiet_get | intros s']. apply quiet_ret.
Qed.

Lemma quiet_thread_join t : quiet (thread_join t).
Proof.
  apply quiet_bind; [apply quiet_get | intros s].
  assert (H : quiet (emit (EWait t) ;; observe ;; s' <- get ;;
                     match t with
                     | None => if started (thread s') then eval Hang else ret tt
                     | Some _ => ret tt
                     end)).
  { apply quiet_bind; [apply quiet_emit; exact I | intros _].
    apply quiet_bind; [apply quiet_observe | intros _].
    apply quiet_bind; [apply quiet_get | intros s'].
    destruct t; [apply quiet_ret | ].
    destruct (started (thread s')); [apply quiet_eval | apply quiet_ret]. }
  destruct (thread s) as [[ | crashed | ] | ];
    first [exact H | apply quiet_raise].
Qed.

Lemma quiet_Popen_call argv sin : quiet (Popen_call argv sin).
Proof.
  intros [s o]. unfold Popen_call. destruct argv as [ | a l]; [reflexivity | ].
  cbn [os self]. destruct (spawns o) as [ | [pid ticks ws | e] more]; cbn [snd].
  - unfold sent. cbn. rewrite killpg_calls_app. apply app_nil_r.
  - unfold sent. cbn. rewrite killpg_calls_app. apply app_nil_r.
  - unfold sent. cbn. rewrite killpg_calls_app. apply app_nil_r.
Qed.

Lemma quiet_time_sleep v : quiet (time_sleep v).
Proof.
  unfold time_sleep. destruct (fits v); cbn [negb]; [ | apply quiet_raise].
  destruct (negative v); [apply quiet_raise | ].
  intros [s o]. unfold clock_nanosleep, sent. cbn [snd os trace].
  rewrite killpg_calls_app. apply app_nil_r.
Qed.

Lemma quiet_stdin_write i : quiet (stdin_write i).
Proof.
  intros [s o]. unfold stdin_write. cbn [self os].
  destruct (process s) as [p | ]; [ | reflexivity].
  destruct (negb (Popen.stdin p)); [reflexivity | ].
  cbn [snd]. rewrite sent_with_trace. apply app_nil_r.
Qed.

Lemma quiet_feed_step i : quiet (feed_step i).
Proof.
  unfold feed_step.
  destruct (type_is i TInt || type_is i TFloat).
  - apply quiet_bind; [apply quiet_time_sleep | intros _; apply quiet_ret].
  - destruct (type_is i TBytes); [ | apply quiet_ret].
    apply quiet_bind; [apply quiet_catch, quiet_stdin_write | intros r].
    destruct r as [e | u]; [ | apply quiet_ret].
    destruct (is_IOError e); [ | apply quiet_raise].
    apply quiet_bind; [apply quiet_eval | intros m].
    apply quiet_bind; [apply quiet_lg | intros _; apply quiet_ret].
Qed.

Lemma quiet_feed l : quiet (feed l).
Proof.
  induction l as [ | i rest IH]; cbn [feed]; [apply quiet_ret | ].
  apply quiet_bind; [apply quiet_feed_step | intros [ | ]; [exact IH | apply quiet_ret] ].
Qed.

Lemma quiet_thread_start : quiet thread_start.
Proof.
  unfold thread_start.
  apply quiet_bind; [apply quiet_emit; exact I | intros _].
  apply quiet_bind; [apply quiet_get | intros s].
  apply quiet_bind; [apply quiet_catch, quiet_feed | intros r].
  apply quiet_modify.
Qed.

Lemma quiet_run : quiet run.
Proof.
  unfold run.
  apply quiet_bind; [apply quiet_get | intros s].
  apply quiet_bind; [apply quiet_catch, quiet_Popen_call | intros r].
  destruct r as [e | p].
  - destruct (is_OSError e); [ | apply quiet_raise].
    apply quiet_bind; [apply quiet_eval | intros m].
    apply quiet_bind; [apply quiet_lg | intros _; apply quiet_raise].
  - apply quiet_bind; [apply quiet_modify | intros _].
    apply quiet_bind; [apply quiet_modify | intros _].
    apply quiet_thread_start.
Qed.

(** What [join] does when no timeout is configured and the group check is
    off, by the state of the waiter. *)
Lemma join_no_timeout_cases ex st :
  timeout (conf (self st)) = None ->
  check_pg_alive (conf (self st)) = false ->
  sent (snd (join ex st)) = sent st /\
  (forall o, fst (join ex st) = Ret o ->
     Outcome.timeout o = false /\
     started (thread (self (snd (join ex st)))) = false).
Proof.
  intros Ht Hc. destruct st as [s [sp ks sl tr]].
  destruct s as [cf pr th k so se et ef etp efp].
  destruct cf as [cmd tmo sout serr sin cwd0 inp dl dc cpa env0].
  cbn [self conf timeout check_pg_alive] in Ht, Hc. subst tmo cpa.
  assert (W : forall e : event, match e with EKillpg _ _ _ => False | _ => True end ->
              killpg_calls (tr ++ [e]) = killpg_calls tr).
  { intros e He. rewrite killpg_calls_app.
    destruct e; try contradiction; cbn; apply app_nil_r. }
  destruct th as [[ | crashed | ] | ].
  - split; [reflexivity | intros o H; discriminate H].
  - destruct pr as [p | ].
    + destruct p as [pargs ppid prc pin pticks pw].
      destruct pticks as [ | [ | c] rest].
      * split; [exact (W (EWait None) I) | intros o H; discriminate H].
      * split; [exact (W (EWait None) I) | intros o H; discriminate H].
      * destruct crashed, dc;
          (split; [exact (W (EWait None) I) | intros o H; split; [ | reflexivity];
                   cbv in H; inversion H; reflexivity]).
    + split; [exact (W (EWait None) I) | intros o H; discriminate H].
  - split; [exact (W (EWait None) I) | ].
    intros o H; split; [ | reflexivity]. cbv in H. inversion H. reflexivity.
  - split; [reflexivity | intros o H; discriminate H].
Qed.

Lemma run_conf st : conf (self (snd (run st))) = conf (self st).
Proof.
  exact (f_equal (fun c => fst (fst (fst (fst c)))) (unchanged_run st)).
Qed.

Lemma init_ps :
  __init__ (CmdStr "ps -Ao pgid") ps_kwargs
  = Ret {| conf := {| command := ps_argv; timeout := None; stdout := PIPE;
                      stderr := DEVNULL; stdin := DEVNULL; cwd := None;
                      inputs := None; delayed_inputs := [];
                      disable_communicate := false; check_pg_alive := false;
                      env := None |};
           process := None; thread := None; killed := false;
           stdout_res := None; stderr_res := None; exit_timeout := false;
           exit_force := false; exit_timeout_pg := false; exit_force_pg := false |}.
Proof. reflexivity. Qed.

(** The run of [ps] signals nobody. *)
Lemma execute_ps_quiet n o :
  killpg_calls (trace (snd (execute (S n) (CmdStr "ps -Ao pgid") ps_kwargs o)))
  = killpg_calls (trace o).
Proof.
  rewrite execute_ps_any_fuel. cbn [execute]. rewrite init_ps. cbv beta iota.
  unfold bind at 1.
  match goal with
  | |- context [run {| self := ?p; os := o |}] => set (proc := p)
  end.
  pose proof (quiet_run {| self := proc; os := o |}) as Q.
  pose proof (run_conf {| self := proc; os := o |}) as C.
  destruct (run {| self := proc; os := o |}) as [[[] | e | | ] st1]; cbn [snd] in *;
    try exact Q.
  match goal with
  | |- context [join ?ex st1] =>
      destruct (join_no_timeout_cases ex st1) as [H _];
        [ rewrite C; reflexivity | rewrite C; reflexivity | ];
      destruct (join ex st1) as [r st2]
  end.
  cbn [snd] in *. unfold sent in *. cbn [os] in *. rewrite H. exact Q.
Qed.

Lemma quiet_is_alive n : quiet (is_alive (execute (S n))).
Proof.
  unfold is_alive. apply quiet_bind.
  - intros [s o]. unfold call_execute. cbn [os self].
    pose proof (execute_ps_quiet n o) as H.
    destruct (execute (S n) (CmdStr "ps -Ao pgid") ps_kwargs o) as [r o'].
    exact H.
  - intros result. destruct (Outcome.stdout result) as [b | ]; [ | apply quiet_raise].
    destruct (Text.utf8_decode b) as [text | ]; [ | apply quiet_raise].
    apply quiet_bind; [apply quiet_process_pid | intros pid; apply quiet_ret].
Qed.

Lemma triple_bind {A B} P (m : M A) Q (f : A -> M B) R E :
  triple P m Q E -> (forall a, triple (Q a) (f a) R E) -> triple P (bind m f) R E.
Proof.
  intros Hm Hf st HP. unfold bind. specialize (Hm st HP).
  destruct (m st) as [[a | e | | ] st1]; try exact Hm.
  apply (Hf a st1 Hm).
Qed.

Lemma triple_quiet {A} (k : list Signal) (m : M A) (E : St -> Prop) :
  quiet m -> (forall st, sent st = k -> E st) ->
  triple (fun st => sent st = k) m (fun _ st => sent st = k) E.
Proof.
  intros Hq HE st HP. specialize (Hq st). rewrite HP in Hq.
  destruct (m st) as [[a | e | | ] st1]; cbn [snd] in Hq; auto.
Qed.

Lemma triple_os_killpg (k : list Signal) pgid sig (E : St -> Prop) :
  (forall st, sent st = k ++ [sig] -> E st) ->
  triple (fun st => sent st = k) (os_killpg pgid sig)
         (fun _ st => sent st = k ++ [sig]) E.
Proof.
  intros HE [s o] HP. unfold os_killpg. cbn [os self].
  assert (H : sent {| self := s;
                      os := {| spawns := spawns o; kills := tl (kills o); sleeps := sleeps o;
                               trace := trace o ++
                                 [EKillpg pgid sig
                                    match kills o with r :: _ => r | [] => None end] |} |}
              = k ++ [sig]).
  { unfold sent in *. cbn [os trace] in *. rewrite killpg_calls_app, HP. reflexivity. }
  destruct (kills o) as [ | [e | ] ks]; cbn; auto.
Qed.

Lemma triple_end {A} (P : St -> Prop) (a : A) (Q : A -> St -> Prop) E :
  (forall st, P st -> Q a st) -> triple P (ret a) Q E.
Proof. intros H st HP. cbn. auto. Qed.

Ltac quiet_step :=
  first
    [ apply quiet_thread_join | apply quiet_thread_is_alive | apply quiet_is_alive
    | apply quiet_modify | apply quiet_process_pid | apply quiet_eval
    | apply quiet_lg | apply quiet_get | apply quiet_ret ].

(** In one call of [join], [os.killpg] is called at most twice: with
    SIGTERM first, and with SIGKILL only after SIGTERM.  This holds in every
    state and whatever [ps] answers. *)
Theorem join_escalation n st :
  exists d, sent (snd (join (execute (S n)) st)) = sent st ++ d /\ escalation d.
Proof.
  set (k := sent st).
  assert (T : triple (fun st' => sent st' = k) (join (execute (S n)))
                     (fun _ st' => exists d, sent st' = k ++ d /\ escalation d)
                     (fun st' => exists d, sent st' = k ++ d /\ escalation d)).
  { assert (E0 : forall st', sent st' = k -> exists d, sent st' = k ++ d /\ escalation d).
    { intros st' H. exists []. rewrite app_nil_r. split; [exact H | left; reflexivity]. }
    assert (E1 : forall st', sent st' = k ++ [SIGTERM] ->
                             exists d, sent st' = k ++ d /\ escalation d).
    { intros st' H. exists [SIGTERM]. split; [exact H | right; left; reflexivity]. }
    assert (E2 : forall st', sent st' = (k ++ [SIGTERM]) ++ [SIGKILL] ->
                             exists d, sent st' = k ++ d /\ escalation d).
    { intros st' H. exists [SIGTERM; SIGKILL]. rewrite <- app_assoc in H.
      split; [exact H | right; right; reflexivity]. }
    unfold join.
    eapply triple_bind; [apply triple_quiet; [quiet_step | exact E0] | intros v_s; cbv beta].
    eapply triple_bind; [apply triple_quiet; [quiet_step | exact E0] | intros ?; cbv beta].
    eapply triple_bind; [apply triple_quiet; [quiet_step | exact E0] | intros v_t; cbv beta].
    eapply triple_bind; [apply triple_quiet; [quiet_step | exact E0] | intros ?; cbv beta].
    eapply triple_bind;
      [apply triple_quiet; [destruct (check_pg_alive (conf v_s)); quiet_step | exact E0]
      | intros live; cbv beta].
    eapply (triple_bind _ _ (fun _ st' => exists d, sent st' = k ++ d /\ escalation d)).
    - destruct live; [ | apply triple_end; exact E0].
      eapply triple_bind; [apply triple_quiet; [quiet_step | exact E0] | intros ?; cbv beta].
      eapply triple_bind; [apply triple_quiet; [quiet_step | exact E0] | intros v_pid; cbv beta].
      eapply triple_bind; [apply triple_quiet; [quiet_step | exact E0] | intros v_m; cbv beta].
      eapply triple_bind; [apply triple_quiet; [quiet_step | exact E0] | intros ?; cbv beta].
      eapply triple_bind; [apply triple_quiet; [quiet_step | exact E0] | intros pid'].
      eapply triple_bind; [apply triple_os_killpg; exact E1 | intros ?; cbv beta].
      eapply triple_bind; [apply triple_quiet; [quiet_step | exact E1] | intros ?; cbv beta].
      eapply triple_bind; [apply triple_quiet; [quiet_step | exact E1] | intros t'].
      eapply triple_bind; [apply triple_quiet; [quiet_step | exact E1] | intros ?; cbv beta].
      eapply triple_bind;
        [apply triple_quiet; [destruct (check_pg_alive (conf v_s)); quiet_step | exact E1]
        | intros live'; cbv beta].
      destruct live'; [ | apply triple_end; exact E1].
      eapply triple_bind; [apply triple_quiet; [quiet_step | exact E1] | intros ?; cbv beta].
      eapply triple_bind; [apply triple_quiet; [quiet_step | exact E1] | intros v_pid2; cbv beta].
      eapply triple_bind; [apply triple_quiet; [quiet_step | exact E1] | intros v_m2; cbv beta].
      eapply triple_bind; [apply triple_quiet; [quiet_step | exact E1] | intros ?; cbv beta].
      eapply triple_bind; [apply triple_quiet; [quiet_step | exact E1] | intros v_pid3; cbv beta].
      eapply triple_bind; [apply triple_os_killpg; exact E2 | intros ?; cbv beta].
      eapply triple_bind; [apply triple_quiet; [quiet_step | exact E2] | intros v_t3; cbv beta].
      destruct v_t3; [ | apply triple_end; exact E2].
      eapply triple_bind; [apply triple_quiet; [quiet_step | exact E2] | intros v_pid4; cbv beta].
      eapply triple_bind; [apply triple_quiet; [quiet_step | exact E2] | intros v_m4; cbv beta].
      intros st' H. specialize (quiet_lg ERROR v_m4 st') as Q. rewrite H in Q.
      destruct (lg ERROR v_m4 st') as [[[] | e | | ] st2]; cbn [snd] in Q; apply E2; exact Q.
    - intros _. intros st' (d & H1 & H2). cbn. exists d. split; assumption. }
  specialize (T st eq_refl).
  destruct (join (execute (S n)) st) as [[o | e | | ] st']; exact T.
Qed.

Ltac split_scripts :=
  repeat (cbv -[app killpg_calls recorded];
          match goal with
          | |- context [match ?l with [] => _ | _ :: _ => _ end] =>
              is_var l;
              first [ destruct l as [ | [ | ? ] ? ] | destruct l as [ | [ ? | ] ? ] ]
          end);
  cbv -[app killpg_calls recorded].

(** With the group check off, the flags tell what was sent: a SIGTERM
    was sent by this [join] only if it has set [exit_timeout], and a SIGKILL
    only if it has also set [exit_force]. *)
Theorem join_flags_record_signals ex st :
  check_pg_alive (conf (self st)) = false ->
  exists d, sent (snd (join ex st)) = sent st ++ d /\
            recorded (self (snd (join ex st))) d.
Proof.
  intros Hc. destruct st as [s [sp ks sl tr]].
  destruct s as [cf pr th k so se et ef etp efp].
  destruct cf as [cmd tmo sout serr sin cwd0 inp dl dc cpa env0].
  cbn [self conf check_pg_alive] in Hc. subst cpa.
  destruct th as [[ | crashed | ] | ];
    [ | destruct pr as [[pargs ppid prc pin pticks pw] | ] | | ];
    destruct tmo as [q | ]; try destruct crashed; try destruct dc;
    split_scripts;
    (match goal with
     | |- exists d, ?X = _ /\ _ =>
         let X' := fresh "X" in
         let HX := fresh "HX" in
         remember X as X' eqn:HX;
         rewrite ?killpg_calls_app in HX; cbn [killpg_calls flat_map app] in HX;
         rewrite <- ?app_assoc in HX; cbn [app] in HX; rewrite ?app_nil_r in HX;
         subst X'
     end;
     eexists; split;
     [ first [ reflexivity | symmetry; apply app_nil_r ]
     | unfold recorded; cbn;
       first [ left; reflexivity
             | right; left; split; reflexivity
             | right; right; repeat split; reflexivity ] ]).
Qed.

(* ================================================================== *)
(** ** Calls out of order, and signals to a running child *)

(** [join] and [send_signal] on an object that [run] has not started (or
    whose launch failed) raise [AttributeError], [self.thread] being
    [None], and change nothing. *)
Theorem not_started_raises ex sig st :
  thread (self st) = None ->
  join ex st = (Raise AttributeError, st) /\
  send_signal sig st = (Raise AttributeError, st).
Proof.
  intros Ht. split.
  - unfold join. rewrite bind_get. unfold bind at 1. unfold thread_join.
    rewrite bind_get, Ht. reflexivity.
  - unfold send_signal. unfold bind at 1. unfold thread_is_alive.
    rewrite bind_get, Ht. reflexivity.
Qed.

Lemma not_started_raises_witness :
  thread (self missing) = None /\
  join (execute 1) missing = (Raise AttributeError, missing) /\
  send_signal SIGTERM missing = (Raise AttributeError, missing).
Proof.
  split; [reflexivity | ].
  apply (not_started_raises (execute 1) SIGTERM missing). reflexivity.
Defined.



Lemma feed_step_goes_through v s o p :
  process s = Some p ->
  Popen.stdin p = true ->
  Popen.writes p = [] ->
  sleeps o = [] ->
  sleepable v = true ->
  feed_step v {| self := s; os := o |}
  = (Ret true, {| self := s; os := grow (step_events v) o |}).
Proof.
  intros Hp Hin Hw Hsl Hv. unfold feed_step, step_events.
  apply andb_prop in Hv. destruct Hv as [Hf Hn]. apply negb_true_iff in Hn.
  destruct (type_is v TInt || type_is v TFloat).
  - unfold bind, time_sleep, clock_nanosleep, grow, ret. rewrite Hf, Hn.
    cbn [negb os self]. rewrite Hsl. reflexivity.
  - destruct (type_is v TBytes).
    + unfold bind, catch, stdin_write. cbn [self os]. rewrite Hp, Hin, Hw. cbn.
      destruct s as [cf pr th k so se et ef etp efp]. cbn in Hp. subst pr.
      destruct p as [pargs ppid prc pin pticks pw]. cbn in Hw. subst pw.
      reflexivity.
    + unfold ret, grow. rewrite app_nil_r. destruct o. reflexivity.
Qed.

(** Into a pipe that accepts everything, on a system that grants every
    sleep, and with every staged number a length that [time.sleep] accepts
    (not negative, and within 64 bits as nanoseconds), the staged steps are
    carried out one after the other in the order of the list: the sleeps and
    the writes appear in the trace in that order, entries of other types
    leaving no mark, and the loop returns normally with the object as it
    was. *)
Theorem feed_in_order l s o p :
  process s = Some p ->
  Popen.stdin p = true ->
  Popen.writes p = [] ->
  sleeps o = [] ->
  forallb sleepable l = true ->
  feed l {| self := s; os := o |}
  = (Ret tt, {| self := s; os := grow (flat_map step_events l) o |}).
Proof.
  intros Hp Hin Hw. revert o.
  induction l as [ | v l IH]; intros o Hsl Hl.
  - cbn. unfold ret, grow. rewrite app_nil_r. destruct o. reflexivity.
  - cbn [forallb] in Hl. apply andb_prop in Hl. destruct Hl as [Hv Hl].
    cbn [feed flat_map].
    rewrite (bind_eq _ _ _ _ _ (feed_step_goes_through v s o p Hp Hin Hw Hsl Hv)).
    rewrite (IH (grow (step_events v) o) Hsl Hl).
    unfold grow. cbn. rewrite app_assoc. reflexivity.
Qed.

Lemma feed_in_order_witness :
  feed [VFloat (1 # 10)%Q; VBytes hello; VStr "x"; VInt 1; VBytes hello]
    {| self := self (snd (feed_step (VBytes hello) broken_pipe_fed));
       os := system [] |}
  = (Ret tt,
     {| self := self (snd (feed_step (VBytes hello) broken_pipe_fed));
        os := grow [ESleep (VFloat (1 # 10)%Q); EWrite hello WriteOk;
                    ESleep (VInt 1); EWrite hello WriteOk] (system []) |}).
Proof.
  apply (feed_in_order
           [VFloat (1 # 10)%Q; VBytes hello; VStr "x"; VInt 1; VBytes hello]
           (self (snd (feed_step (VBytes hello) broken_pipe_fed))) (system [])
           {| Popen.args := ["cat"]; Popen.pid := 100; Popen.returncode := None;
              Popen.stdin := true;
              Popen.ticks := [Done {| exit_code := 0; out := []; err := [] |}];
              Popen.writes := [] |});
    reflexivity.
Defined.










Lemma join_flags_record_signals_witness :
  check_pg_alive (conf (self sleeper)) = false /\
  exists d, sent (snd (join (execute 1) sleeper)) = sent sleeper ++ d /\
            recorded (self (snd (join (execute 1) sleeper))) d.
Proof.
  exact (conj eq_refl (join_flags_record_signals (execute 1) sleeper eq_refl)).
Defined.

(** Without a timeout and with the group check off, [join] makes no
    [os.killpg] call whatever the child does: it returns only when the
    waiter thread has finished, with [timeout] false, and otherwise does
    not return (or raises, on an object not started). *)
Theorem join_without_timeout ex st :
  timeout (conf (self st)) = None ->
  check_pg_alive (conf (self st)) = false ->
  sent (snd (join ex st)) = sent st /\
  (forall o, fst (join ex st) = Ret o ->
     Outcome.timeout o = false /\
     started (thread (self (snd (join ex st)))) = false) /\
  (started (thread (self (snd (observe st)))) = true -> fst (join ex st) = Hang).
Proof.
  intros Ht Hc.
  destruct (join_no_timeout_cases ex st Ht Hc) as [H1 H2].
  split; [exact H1 | split; [exact H2 | ] ].
  destruct st as [s [sp ks sl tr]].
  destruct s as [cf pr th k so se et ef etp efp].
  destruct cf as [cmd tmo sout serr sin cwd0 inp dl dc cpa env0].
  cbn [self conf timeout check_pg_alive] in Ht, Hc. subst tmo cpa.
  destruct th as [[ | crashed | ] | ]; try (intros H; discriminate H).
  destruct pr as [[pargs ppid prc pin pticks pw] | ]; [ | reflexivity].
  destruct pticks as [ | [ | c] rest]; try reflexivity.
  cbn. intros H; discriminate H.
Qed.

Lemma join_without_timeout_witness :
  timeout (conf (self (launched (object ["sleep"; "100"] None false [] DEVNULL)
                                (system [Spawned 100 [] []])))) = None /\
  fst (join (execute 1)
         (launched (object ["sleep"; "100"] None false [] DEVNULL)
                   (system [Spawned 100 [] []]))) = Hang /\
  sent (snd (join (execute 1)
               (launched (object ["sleep"; "100"] None false [] DEVNULL)
                         (system [Spawned 100 [] []])))) = [].
Proof.
  destruct (join_without_timeout (execute 1)
              (launched (object ["sleep"; "100"] None false [] DEVNULL)
                        (system [Spawned 100 [] []])) eq_refl eq_refl)
    as (H1 & _ & H3).
  split; [reflexivity | split; [exact (H3 eq_refl) | exact H1] ].
Defined.


Lemma keeps_killed_bind {A B} (m : M A) (f : A -> M B) :
  keeps_killed m -> (forall a, keeps_killed (f a)) -> keeps_killed (bind m f).
Proof.
  intros Hm Hf st. unfold bind. specialize (Hm st).
  destruct (m st) as [[a | e | | ] st1]; cbn [snd] in *; try exact Hm.
  rewrite Hf. exact Hm.
Qed.

Lemma keeps_killed_catch {A} (m : M A) : keeps_killed m -> keeps_killed (catch m).
Proof.
  intros Hm st. unfold catch. specialize (Hm st).
  destruct (m st) as [[a | e | | ] st1]; exact Hm.
Qed.

Lemma keeps_killed_same {A} (m : M A) :
  (forall st, self (snd (m st)) = self st) -> keeps_killed m.
Proof. intros H st. rewrite H. reflexivity. Qed.

Lemma keeps_killed_observe : keeps_killed observe.
Proof.
  intros [s o]. unfold observe. cbn [self].
  destruct (thread s) as [[ | crashed | ] | ]; try reflexivity.
  destruct (process s) as [p | ] eqn:Hp; try reflexivity.
  destruct (Popen.ticks p) as [ | [ | c] rest]; try reflexivity.
  destruct crashed; try reflexivity.
  unfold target_end. cbn. destruct (disable_communicate (conf s)); reflexivity.
Qed.

Lemma keeps_killed_stdin_write i : keeps_killed (stdin_write i).
Proof.
  intros st. unfold stdin_write. destruct (process (self st)) as [p | ]; [ | reflexivity].
  destruct (negb (Popen.stdin p)); reflexivity.
Qed.

Lemma keeps_killed_Popen_call argv sin : keeps_killed (Popen_call argv sin).
Proof.
  intros st. unfold Popen_call. destruct argv; [reflexivity | ].
  destruct (spawns (os st)) as [ | [pid ticks ws | e] more]; reflexivity.
Qed.

Lemma keeps_killed_is_alive ex : keeps_killed (is_alive ex).
Proof. apply keeps_killed_same. apply is_alive_self. Qed.

(** Straight-line code over calls that keep [killed]. *)
Ltac keeps_killed :=
  repeat first
    [ apply keeps_killed_observe | apply keeps_killed_stdin_write
    | apply keeps_killed_Popen_call | apply keeps_killed_is_alive
    | apply keeps_killed_catch
    | match goal with
      | |- keeps_killed (if ?b then _ else _) => destruct b
      | |- keeps_killed (match ?x with _ => _ end) => destruct x
      | |- keeps_killed (modify _) => intros [? ?]; reflexivity
      end
    | apply keeps_killed_bind; [ | intros ? ]
    | solve [ apply keeps_killed_same; intros [? ?]; reflexivity ] ].

Lemma keeps_killed_thread_is_alive : keeps_killed thread_is_alive.
Proof. unfold thread_is_alive. keeps_killed. Qed.

Lemma keeps_killed_thread_join t : keeps_killed (thread_join t).
Proof. unfold thread_join. keeps_killed. Qed.

Lemma keeps_killed_feed_step i : keeps_killed (feed_step i).
Proof. unfold feed_step, time_sleep. keeps_killed. Qed.

Lemma keeps_killed_feed l : keeps_killed (feed l).
Proof.
  induction l as [ | i rest IH]; cbn [feed]; [keeps_killed | ].
  apply keeps_killed_bind; [apply keeps_killed_feed_step | intros [ | ]; [exact IH | keeps_killed] ].
Qed.

Lemma keeps_killed_run : keeps_killed run.
Proof.
  unfold run.
  apply keeps_killed_bind; [keeps_killed | intros s].
  apply keeps_killed_bind; [keeps_killed | intros r].
  destruct r as [e | p]; [keeps_killed | ].
  apply keeps_killed_bind; [keeps_killed | intros _].
  apply keeps_killed_bind; [keeps_killed | intros _].
  unfold thread_start.
  apply keeps_killed_bind; [keeps_killed | intros _].
  apply keeps_killed_bind; [keeps_killed | intros s'].
  apply keeps_killed_bind; [apply keeps_killed_catch, keeps_killed_feed | intros r].
  keeps_killed.
Qed.

Lemma keeps_killed_join ex : keeps_killed (join ex).
Proof.
  unfold join.
  repeat first
    [ apply keeps_killed_thread_join | apply keeps_killed_thread_is_alive
    | apply keeps_killed_is_alive
    | match goal with
      | |- keeps_killed (if ?b then _ else _) => destruct b
      | |- keeps_killed (match ?x with _ => _ end) => destruct x
      | |- keeps_killed (modify _) => intros [? ?]; reflexivity
      end
    | apply keeps_killed_bind; [ | intros ? ]
    | solve [ apply keeps_killed_same; intros [? ?]; reflexivity ] ].
Qed.

Lemma keeps_killed_send_signal sig : keeps_killed (send_signal sig).
Proof.
  unfold send_signal.
  apply keeps_killed_bind; [apply keeps_killed_thread_is_alive | intros a].
  destruct a; unfold process_send_signal; keeps_killed.
Qed.

(** The constructor sets [self.killed] to [False] and no method assigns it
    again: it keeps its value through [run], [join] and [send_signal],
    whatever happens to the child, and a whole [execute]-like use of a new
    object ends with it still [False], even after a SIGKILL. *)
Theorem killed_is_never_set ex sig command kwargs s o :
  __init__ command kwargs = Ret s ->
  killed s = false /\
  killed (self (snd (run {| self := s; os := o |}))) = false /\
  killed (self (snd ((run ;; join ex) {| self := s; os := o |}))) = false /\
  killed (self (snd ((run ;; join ex ;; send_signal sig ;; join ex)
                       {| self := s; os := o |}))) = false.
Proof.
  intros Hi.
  assert (K : killed s = false).
  { unfold __init__ in Hi.
    destruct (match command with CmdStr str => Shlex.split str | CmdList l => Ret l end);
      inversion Hi; reflexivity. }
  split; [exact K | ].
  split; [rewrite keeps_killed_run; exact K | ].
  split.
  - rewrite (keeps_killed_bind run (fun _ => join ex) keeps_killed_run
               (fun _ => keeps_killed_join ex)). exact K.
  - assert (H : keeps_killed (run ;; join ex ;; send_signal sig ;; join ex)).
    { apply keeps_killed_bind; [apply keeps_killed_run | intros _].
      apply keeps_killed_bind; [apply keeps_killed_join | intros _].
      apply keeps_killed_bind; [apply keeps_killed_send_signal | intros _].
      apply keeps_killed_join. }
    rewrite H. exact K.
Qed.

Lemma killed_is_never_set_witness :
  killed (self (snd ((run ;; join (execute 1))
                       {| self := object ["sleep"; "100"] (Some (1 # 5)%Q) false [] DEVNULL;
                          os := system [Spawned 100 [] []] |}))) = false.
Proof.
  exact (proj1 (proj2 (proj2
           (killed_is_never_set (execute 1) SIGINT (CmdList ["sleep"; "100"])
              (kwargs (Some (1 # 5)%Q) false [] DEVNULL)
              (object ["sleep"; "100"] (Some (1 # 5)%Q) false [] DEVNULL)
              (system [Spawned 100 [] []]) eq_refl)))).
Defined.

(* ================================================================== *)
(** ** The nesting of [execute], [join] and [is_alive] *)

Lemma bind_ext {A B} (m m' : M A) (f g : A -> M B) st :
  m st = m' st -> (forall a st', f a st' = g a st') -> bind m f st = bind m' g st.
Proof.
  intros Hm Hf. unfold bind. rewrite Hm.
  destruct (m' st) as [[a | e | | ] st1]; try reflexivity. apply Hf.
Qed.

Lemma is_alive_ext ex ex' st :
  (forall o, ex (CmdStr "ps -Ao pgid") ps_kwargs o
             = ex' (CmdStr "ps -Ao pgid") ps_kwargs o) ->
  is_alive ex st = is_alive ex' st.
Proof.
  intros H. unfold is_alive. apply bind_ext; [ | reflexivity].
  unfold call_execute. rewrite H. reflexivity.
Qed.

(** [join] uses the [execute] it is given for [ps] only. *)
Lemma join_ext ex ex' st :
  (forall o, ex (CmdStr "ps -Ao pgid") ps_kwargs o
             = ex' (CmdStr "ps -Ao pgid") ps_kwargs o) ->
  join ex st = join ex' st.
Proof.
  intros H. unfold join.
  assert (A : forall (c : bool) st',
             (if c then is_alive ex else thread_is_alive) st'
             = (if c then is_alive ex' else thread_is_alive) st').
  { intros [ | ] st'; [apply is_alive_ext; exact H | reflexivity]. }
  apply bind_ext; [reflexivity | intros s st1].
  apply bind_ext; [reflexivity | intros u1 st2].
  apply bind_ext; [reflexivity | intros t st3].
  apply bind_ext; [reflexivity | intros u2 st4].
  apply bind_ext; [apply A | intros live st5].
  apply bind_ext; [ | reflexivity].
  destruct live; [ | reflexivity].
  repeat (apply bind_ext; [first [apply A | reflexivity] | intros ? ?]).
  match goal with |- (if ?b then _ else _) _ = _ => destruct b end; reflexivity.
Qed.

Lemma execute_S fuel command kwargs o :
  execute (S fuel) command kwargs o =
    match __init__ command kwargs with
    | Ret proc =>
        let '(r, st) := (run ;; join (execute fuel)) {| self := proc; os := o |} in
        (r, os st)
    | Raise e => (Raise e, o)
    | Hang => (Hang, o)
    | NoFuel => (NoFuel, o)
    end.
Proof. reflexivity. Qed.

(** A budget of two is all [execute] ever uses: whatever the command and
    the options, one level serves the run itself and one the run of [ps]
    inside [is_alive], whose own [join] has the group check off. *)
Theorem execute_nesting n command kwargs o :
  execute (S (S n)) command kwargs o = execute 2 command kwargs o.
Proof.
  rewrite (execute_S (S n)), (execute_S 1).
  destruct (__init__ command kwargs) as [proc | e | | ];
    [ | reflexivity | reflexivity | reflexivity ].
  assert (H : (run ;; join (execute (S n))) {| self := proc; os := o |}
              = (run ;; join (execute 1)) {| self := proc; os := o |}).
  { apply bind_ext; [exact eq_refl | intros u st'].
    apply join_ext. intros o'. apply execute_ps_any_fuel. }
  rewrite H. exact eq_refl.
Qed.

Lemma text_eqb_eq a b : Text.eqb a b = true <-> a = b.
Proof.
  revert b. induction a as [ | x a IH]; intros [ | y b]; cbn; split; intros H;
    try discriminate; try reflexivity.
  - apply andb_prop in H. destruct H as [H1 H2]. apply N.eqb_eq in H1.
    apply IH in H2. subst. reflexivity.
  - inversion H; subst. rewrite N.eqb_refl. apply IH. reflexivity.
Qed.

Lemma of_string_inj s s' : Text.of_string s = Text.of_string s' -> s = s'.
Proof.
  revert s'. induction s as [ | c s IH]; intros [ | c' s'] H; cbn in H;
    try discriminate; try reflexivity.
  inversion H as [[H1 H2]]. f_equal.
  - rewrite <- (ascii_N_embedding c), <- (ascii_N_embedding c'), H1. reflexivity.
  - apply IH. exact H2.
Qed.

Lemma to_int_not_nil z : Z.to_int z <> Decimal.Pos Decimal.Nil /\
                          Z.to_int z <> Decimal.Neg Decimal.Nil.
Proof.
  destruct z as [ | p | p]; cbn; split; try discriminate;
    intros H; inversion H as [E]; exact (Unsigned.to_uint_nonnil p E).
Qed.

(** [str] of an integer determines the integer. *)
Lemma str_of_int_inj a b : Text.str_of_int a = Text.str_of_int b -> a = b.
Proof.
  unfold Text.str_of_int. intros H. apply of_string_inj in H.
  apply to_int_inj.
  assert (Ha := NilZero.isi (Z.to_int a) (proj1 (to_int_not_nil a)) (proj2 (to_int_not_nil a))).
  assert (Hb := NilZero.isi (Z.to_int b) (proj1 (to_int_not_nil b)) (proj2 (to_int_not_nil b))).
  rewrite H in Ha. rewrite Ha in Hb. inversion Hb. reflexivity.
Qed.

Lemma str_of_int_not_header z : Text.str_of_int z <> Text.of_string "PGID".
Proof.
  unfold Text.str_of_int. intros H. apply of_string_inj in H.
  assert (Ha := NilZero.isi (Z.to_int z) (proj1 (to_int_not_nil z)) (proj2 (to_int_not_nil z))).
  rewrite H in Ha. discriminate Ha.
Qed.

Lemma uint_solid d :
  Forall (fun c => Text.isspace c = false)
         (Text.of_string (NilEmpty.string_of_uint d)).
Proof. induction d; cbn; constructor; try reflexivity; assumption. Qed.

Lemma str_of_int_solid z : solid (Text.str_of_int z).
Proof.
  unfold Text.str_of_int.
  assert (U : forall d, d <> Decimal.Nil ->
                solid (Text.of_string (NilZero.string_of_uint d))).
  { intros d Hd. split.
    - destruct d; try discriminate; contradiction.
    - destruct d; try contradiction; apply (uint_solid _). }
  destruct z as [ | p | p]; cbn [Z.to_int NilZero.string_of_int].
  - split; [discriminate | repeat constructor].
  - apply U, Unsigned.to_uint_nonnil.
  - destruct (U (Pos.to_uint p) (Unsigned.to_uint_nonnil p)) as [_ F].
    split; [discriminate | ]. cbn. constructor; [reflexivity | exact F].
Qed.

Lemma split_go_word w c rest cur :
  Forall (fun c => Text.isspace c = false) w ->
  Text.isspace c = true ->
  cur ++ w <> [] ->
  Text.split_go (w ++ c :: rest) cur = (cur ++ w) :: Text.split_go rest [].
Proof.
  intros Hw Hc. revert cur. induction Hw as [ | x w Hx Hw IH]; intros cur Hne.
  - cbn [app Text.split_go]. rewrite Hc. rewrite app_nil_r in *.
    destruct cur; [contradiction | reflexivity].
  - cbn [app Text.split_go]. rewrite Hx. rewrite IH.
    + rewrite <- app_assoc. reflexivity.
    + rewrite <- app_assoc. exact Hne.
Qed.

Lemma split_lines pgids :
  Text.split_go (flat_map (fun g => [32%N] ++ Text.str_of_int g ++ [10%N]) pgids) []
  = map Text.str_of_int pgids.
Proof.
  induction pgids as [ | g l IH]; [reflexivity | ].
  cbn [flat_map map]. rewrite <- !app_assoc. cbn [app Text.split_go].
  change (Text.isspace 32) with true. cbv iota.
  destruct (str_of_int_solid g) as [Hne Hs].
  rewrite (split_go_word (Text.str_of_int g) 10%N _ [] Hs eq_refl Hne).
  cbn [app]. f_equal. exact IH.
Qed.

Lemma split_listing pgids :
  Text.split (listing pgids) = Text.of_string "PGID" :: map Text.str_of_int pgids.
Proof.
  unfold Text.split, listing.
  change (Text.of_string "PGID" ++ [10%N]
          ++ flat_map (fun g => [32%N] ++ Text.str_of_int g ++ [10%N]) pgids)
    with (Text.of_string "PGID" ++ 10%N
          :: flat_map (fun g => [32%N] ++ Text.str_of_int g ++ [10%N]) pgids).
  rewrite (split_go_word (Text.of_string "PGID") 10%N _ []).
  - cbn [app]. f_equal. apply split_lines.
  - repeat constructor.
  - reflexivity.
  - discriminate.
Qed.

Lemma mem_listing pid pgids :
  Text.mem (Text.str_of_int pid) (Text.split (listing pgids))
  = existsb (Z.eqb pid) pgids.
Proof.
  rewrite split_listing. unfold Text.mem. cbn [existsb].
  replace (Text.eqb (Text.str_of_int pid) (Text.of_string "PGID")) with false.
  - cbn [orb]. induction pgids as [ | g l IH]; [reflexivity | ].
    cbn [map existsb]. rewrite IH. f_equal.
    destruct (Z.eqb_spec pid g) as [-> | Hn].
    + apply text_eqb_eq. reflexivity.
    + destruct (Text.eqb (Text.str_of_int pid) (Text.str_of_int g)) eqn:E;
        [ | reflexivity].
      apply text_eqb_eq, str_of_int_inj in E. contradiction.
  - symmetry. destruct (Text.eqb _ _) eqn:E; [ | reflexivity].
    apply text_eqb_eq in E. exfalso. exact (str_of_int_not_header pid E).
Qed.

(** When [ps] answers with the listing of the groups [pgids], [is_alive]
    returns whether the child's pid is one of them: whole numbers are
    compared, so a pid is not found inside a longer number, nor in the
    header. *)
Theorem is_alive_reads_listing n st p pgids :
  process (self st) = Some p ->
  ps_answers (os st) (listing pgids) ->
  fst (is_alive (execute (S n)) st) = Ret (existsb (Z.eqb (Popen.pid p)) pgids).
Proof.
  intros Hp (hpid & c & rest & ws & more & Hs & Hd).
  rewrite (is_alive_ps n st p hpid c rest ws more (listing pgids) Hp Hs Hd).
  cbn [fst]. rewrite mem_listing. reflexivity.
Qed.

Lemma is_alive_reads_listing_witness :
  ps_answers (os {| self := self quick;
                    os := system [ps ("PGID" ++ nl ++ " 1000" ++ nl ++ " 10" ++ nl)%string] |})
             (listing [1000; 10]) /\
  fst (is_alive (execute 1)
         {| self := self quick;
            os := system [ps ("PGID" ++ nl ++ " 1000" ++ nl ++ " 10" ++ nl)%string] |})
  = Ret false.
Proof.
  assert (A : ps_answers
                (os {| self := self quick;
                       os := system [ps ("PGID" ++ nl ++ " 1000" ++ nl ++ " 10" ++ nl)%string] |})
                (listing [1000; 10])).
  { eexists. eexists. eexists. eexists. eexists. split; reflexivity. }
  split; [exact A | ].
  exact (is_alive_reads_listing 0
           {| self := self quick;
              os := system [ps ("PGID" ++ nl ++ " 1000" ++ nl ++ " 10" ++ nl)%string] |}
           {| Popen.args := ["true"]; Popen.pid := 100; Popen.returncode := None;
              Popen.stdin := false;
              Popen.ticks := [Done {| exit_code := 0; out := []; err := [] |}];
              Popen.writes := [] |}
           [1000; 10] eq_refl A).
Defined.
